(** * Mastermind (albrdev/mastermind): the game core of [mastermind.ino]

    A shallow embedding of the secret generator, the guess evaluation and
    the key-event state machine of the Arduino sketch, together with the
    copy of the shuffle that the unit-test harness builds
    ([test/src/ProductionCode.c]).

    Conventions.
    - A C [char] is an [ascii]; a [char] array is a [list ascii] holding the
      whole object, and every indexed access is bounds-checked: an access
      outside the object is undefined behaviour in C and a [Fault] here.
    - [size_t] loop indices and array sizes are [nat]; the two counters the
      sketch increments ([inputCount], a [size_t], and [tries], an
      [unsigned int]) are [N] with the 16-bit wrap-around of the AVR target
      written out.
    - The keypad, the LCD and the serial port are thin I/O collaborators.
      Of the outputs only the two LED pins and the outcome banners printed
      on the LCD are recorded, since they are what tells a win from a loss. *)

From Stdlib Require Import NArith Ascii String Lia.
From stdpp Require Import base list strings.

Local Open Scope nat_scope.

(** ** Faults and the result monad *)

Inductive fault : Type :=
  | OutOfBounds      (* an array access outside the object *)
  | DivisionByZero.  (* [x % 0] *)

Inductive result (A : Type) : Type :=
  | Ok (a : A)
  | Fault (f : fault).

Arguments Ok {A} a.
Arguments Fault {A} f.

Definition bind {A B : Type} (m : result A) (k : A → result B) : result B :=
  match m with
  | Ok a => k a
  | Fault f => Fault f
  end.

Notation "'let*' x ':=' m 'in' k" := (bind m (fun x => k))
  (at level 10, x pattern, m at level 100, k at level 200, only parsing).

Definition is_Ok {A : Type} (m : result A) : Prop := ∃ a, m = Ok a.

(** ** C arrays of [char] *)

Definition rd (arr : list ascii) (i : nat) : result ascii :=
  match arr !! i with
  | Some c => Ok c
  | None => Fault OutOfBounds
  end.

Definition wr (arr : list ascii) (i : nat) (c : ascii) : result (list ascii) :=
  if decide (i < length arr) then Ok (<[i:=c]> arr) else Fault OutOfBounds.

(** [memset(arr, c, n)] on a [char] array. *)
Definition memset (arr : list ascii) (c : ascii) (n : nat) : result (list ascii) :=
  if decide (n ≤ length arr) then Ok (replicate n c ++ drop n arr)
  else Fault OutOfBounds.

(** [for(size_t i = 0; i < n; i++) body(i)], for a body without [break]. *)
Fixpoint for_up {St : Type} (count i : nat) (body : nat → St → result St)
  (s : St) : result St :=
  match count with
  | 0 => Ok s
  | S count' => let* s' := body i s in for_up count' (S i) body s'
  end.

(** [for(i = n; i-- > stop;) body(i)]: the body runs at [n-1], [n-2], ...,
    [stop], in that order. *)
Fixpoint for_down {St : Type} (n stop : nat) (body : nat → St → result St)
  (s : St) : result St :=
  match n with
  | 0 => Ok s
  | S i => if decide (stop ≤ i)
           then let* s' := body i s in for_down i stop body s'
           else Ok s
  end.

(** ** The entropy source

    The generator behind [random()] / [rand()] is external; it is an
    arbitrary infinite sequence of raw draws and a cursor into it. *)

Record entropy : Type := Entropy { raw : nat → nat; drawn : nat }.

Definition next (e : entropy) : nat * entropy :=
  (raw e (drawn e), {| raw := raw e; drawn := S (drawn e) |}).

(** Modelled from the spec: the Arduino core's [random(howbig)] is not part
    of the repository.  It is the consumed capability "random integer below
    n": one raw draw reduced into [0, howbig); for [howbig = 0] the core
    returns 0.  The sketch never reaches that case. *)
Definition random (howbig : nat) (e : entropy) : nat * entropy :=
  match howbig with
  | 0 => (0, e)
  | _ => let '(r, e') := next e in (r mod howbig, e')
  end.

(** ** Constants of the sketch *)

Definition BUTTON_NEWROUND : ascii := "*".
Definition BUTTON_NEWGAME : ascii := "#".
Definition NO_KEY : ascii := "000".

Definition SECRET_LENGTH : nat := 4.
Definition HINT_WRONG : ascii := "-".
Definition HINT_MISPLACED : ascii := "?".
Definition HINT_CORRECT : ascii := "!".

Definition TRIES_MAX : N := 12.

Definition MESSAGE_WIN : string := "Winner".
Definition MESSAGE_LOSE : string := "Loser".
Definition MESSAGE_NEXTTRY : string := "Try again".

Definition DIGIT_COUNT : nat := 10.

(** The initializer of [randomDigitPool]. *)
Definition DIGIT_POOL_INIT : list ascii :=
  ["0"; "1"; "2"; "3"; "4"; "5"; "6"; "7"; "8"; "9"]%char.

(** ** The shuffle of [mastermind.ino] *)

(** [randomNumber(n)]: [n > 0 ? random(n) : 0]. *)
Definition randomNumber (n : nat) (e : entropy) : nat * entropy :=
  if decide (0 < n) then random n e else (0, e).

(** [size_t z = randomNumber(i) + 1;] *)
Definition draw_z (i : nat) (e : entropy) : nat * entropy :=
  let '(r, e') := randomNumber i e in (r + 1, e').

(** [tmp = arr[i]; arr[i] = arr[z]; arr[z] = tmp;] *)
Definition swap (arr : list ascii) (i z : nat) : result (list ascii) :=
  let* tmp := rd arr i in
  let* az := rd arr z in
  let* arr1 := wr arr i az in
  wr arr1 z tmp.

(** One iteration of the loop body, at index [i]. *)
Definition shuffle_body (i : nat) (st : list ascii * entropy)
  : result (list ascii * entropy) :=
  let '(arr, e) := st in
  let '(z, e') := draw_z i e in
  let* arr' := swap arr i z in
  Ok (arr', e').

(** [for(i = n; i-- > 0;) { ... }] *)
Definition shuffleSort (arr : list ascii) (n : nat) (e : entropy)
  : result (list ascii * entropy) :=
  for_down n 0 shuffle_body (arr, e).

(** The shuffle as the specification words it: "iterate index i from n-1
    down to 1", with the same body. *)
Definition shuffleSort_spec (arr : list ascii) (n : nat) (e : entropy)
  : result (list ascii * entropy) :=
  for_down n 1 shuffle_body (arr, e).

(** ** The shuffle of the test harness ([test/src/ProductionCode.c]) *)

Module Harness.

(** [(size_t)rand() % n], unguarded. *)
Definition random (n : nat) (e : entropy) : result (nat * entropy) :=
  let '(r, e') := next e in
  match n with
  | 0 => Fault DivisionByZero
  | _ => Ok (r mod n, e')
  end.

(** [size_t z = random(i) + 1;] and the swap of [arr[i]] with [arr[z]]. *)
Definition shuffle_body (i : nat) (st : list ascii * entropy)
  : result (list ascii * entropy) :=
  let '(arr, e) := st in
  let* (r, e') := random i e in
  let* arr' := swap arr i (r + 1) in
  Ok (arr', e').

(** [for(i = count; i-- > 0;) { ... }] *)
Definition shuffleSort (arr : list ascii) (count : nat) (e : entropy)
  : result (list ascii * entropy) :=
  for_down count 0 shuffle_body (arr, e).

End Harness.

(** ** Game data *)

Inductive gamestate : Type :=
  | GS_INPUT
  | GS_ROUNDOVER
  | GS_GAMEOVER.

#[global] Instance gamestate_eq_dec : EqDecision gamestate.
Proof. solve_decision. Defined.

(** The anonymous struct [gameData]. *)
Record gameData_t : Type := GameData {
  state : gamestate;
  secret : list ascii;
  input : list ascii;
  hints : list ascii;
  inputCount : N;
  tries : N
}.

(** Everything the sketch reads or writes: the session, the global digit
    pool, the entropy source, the two LED pins and the outcome banners
    printed so far (newest first). *)
Record world : Type := World {
  gameData : gameData_t;
  randomDigitPool : list ascii;
  rng : entropy;
  ledWin : bool;
  ledLose : bool;
  lcdMessages : list string
}.

Definition set_gameData (g : gameData_t) (w : world) : world :=
  {| gameData := g; randomDigitPool := randomDigitPool w; rng := rng w;
     ledWin := ledWin w; ledLose := ledLose w; lcdMessages := lcdMessages w |}.

Definition set_state (s : gamestate) (g : gameData_t) : gameData_t :=
  {| state := s; secret := secret g; input := input g; hints := hints g;
     inputCount := inputCount g; tries := tries g |}.

Definition set_secret (a : list ascii) (g : gameData_t) : gameData_t :=
  {| state := state g; secret := a; input := input g; hints := hints g;
     inputCount := inputCount g; tries := tries g |}.

Definition set_input (a : list ascii) (g : gameData_t) : gameData_t :=
  {| state := state g; secret := secret g; input := a; hints := hints g;
     inputCount := inputCount g; tries := tries g |}.

Definition set_hints (a : list ascii) (g : gameData_t) : gameData_t :=
  {| state := state g; secret := secret g; input := input g; hints := a;
     inputCount := inputCount g; tries := tries g |}.

Definition set_inputCount (n : N) (g : gameData_t) : gameData_t :=
  {| state := state g; secret := secret g; input := input g; hints := hints g;
     inputCount := n; tries := tries g |}.

Definition set_tries (n : N) (g : gameData_t) : gameData_t :=
  {| state := state g; secret := secret g; input := input g; hints := hints g;
     inputCount := inputCount g; tries := n |}.

Definition lcd_print_message (m : string) (w : world) : world :=
  {| gameData := gameData w; randomDigitPool := randomDigitPool w;
     rng := rng w; ledWin := ledWin w; ledLose := ledLose w;
     lcdMessages := m :: lcdMessages w |}.

Definition digitalWrite_win (v : bool) (w : world) : world :=
  {| gameData := gameData w; randomDigitPool := randomDigitPool w;
     rng := rng w; ledWin := v; ledLose := ledLose w;
     lcdMessages := lcdMessages w |}.

Definition digitalWrite_lose (v : bool) (w : world) : world :=
  {| gameData := gameData w; randomDigitPool := randomDigitPool w;
     rng := rng w; ledWin := ledWin w; ledLose := v;
     lcdMessages := lcdMessages w |}.

(** [x++] on a 16-bit unsigned counter. *)
Definition UINT_MODULUS : N := 65536.
Definition incr (x : N) : N := ((x + 1) mod UINT_MODULUS)%N.

(** ** Secret generation *)

(** [generateSecret(allowDuplicates)], with the two macros it depends on as
    explicit arguments. *)
Definition generateSecret_at (secret_length digit_count : nat)
  (allowDuplicates : bool) (w : world) : result world :=
  if allowDuplicates then
    let* (sec, e) :=
      for_up secret_length 0
        (fun i '(sec, e) =>
           let '(r, e') := random digit_count e in
           let* sec' := wr sec i (ascii_of_nat (nat_of_ascii "0" + r)) in
           Ok (sec', e'))
        (secret (gameData w), rng w) in
    Ok {| gameData := set_secret sec (gameData w);
          randomDigitPool := randomDigitPool w; rng := e;
          ledWin := ledWin w; ledLose := ledLose w;
          lcdMessages := lcdMessages w |}
  else
    let* (pool, e) := shuffleSort (randomDigitPool w) digit_count (rng w) in
    let* sec :=
      for_up secret_length 0
        (fun i sec => let* c := rd pool i in wr sec i c)
        (secret (gameData w)) in
    Ok {| gameData := set_secret sec (gameData w);
          randomDigitPool := pool; rng := e;
          ledWin := ledWin w; ledLose := ledLose w;
          lcdMessages := lcdMessages w |}.

Definition generateSecret (allowDuplicates : bool) (w : world) : result world :=
  generateSecret_at SECRET_LENGTH DIGIT_COUNT allowDuplicates w.

(** ** Rounds and games *)

Definition resetInput (w : world) : world :=
  set_gameData (set_state GS_INPUT (set_inputCount 0%N (gameData w))) w.

Definition newGame (w : world) : result world :=
  let* w1 := generateSecret false w in
  let w2 := set_gameData (set_tries 0%N (gameData w1)) w1 in
  let w3 := digitalWrite_win false w2 in
  let w4 := digitalWrite_lose false w3 in
  Ok (resetInput w4).

(** ** Guess evaluation *)

(** The inner loop of [checkInput] for guess position [i]: [count]
    iterations remain, the next one at secret position [j]. *)
Fixpoint scan_secret (count j i : nat) (inp sec hnt : list ascii)
  : result (list ascii) :=
  match count with
  | 0 => Ok hnt
  | S count' =>
      let* a := rd inp i in
      let* b := rd sec j in
      if decide (a = b) then
        if decide (i = j) then
          wr hnt i HINT_CORRECT                                   (* break *)
        else
          let* hnt' := wr hnt i HINT_MISPLACED in
          scan_secret count' (S j) i inp sec hnt'
      else scan_secret count' (S j) i inp sec hnt
  end.

(** [checkInput(input, secret, hints, n)]. *)
Definition checkInput_n (inp sec hnt : list ascii) (n : nat)
  : result (list ascii) :=
  let* hnt0 := memset hnt HINT_WRONG n in
  for_up n 0 (fun i h => scan_secret n 0 i inp sec h) hnt0.

(** [checkInput(void)]: the same loops over the fields of [gameData], with
    [n = SECRET_LENGTH]. *)
Definition checkInput (w : world) : result world :=
  let g := gameData w in
  let* h := checkInput_n (input g) (secret g) (hints g) SECRET_LENGTH in
  Ok (set_gameData (set_hints h g) w).

(** The loop of [isSecretSolved]: [count] iterations remain, the next one
    at index [i]. *)
Fixpoint isSecretSolved_from (count i : nat) (hnt : list ascii) : result bool :=
  match count with
  | 0 => Ok true
  | S count' =>
      let* h := rd hnt i in
      if decide (h ≠ HINT_CORRECT) then Ok false
      else isSecretSolved_from count' (S i) hnt
  end.

(** [isSecretSolved(hints, n)]. *)
Definition isSecretSolved (hnt : list ascii) (n : nat) : result bool :=
  isSecretSolved_from n 0 hnt.

(** [isSolved(void)]: the same loop over [gameData.hints]. *)
Definition isSolved (w : world) : result bool :=
  isSecretSolved (hints (gameData w)) SECRET_LENGTH.

(** ** The event loop *)

(** [key >= '0' && key <= '9']; the conjunction confines [key] to 48..57,
    so the signedness of [char] plays no role. *)
Definition is_digit (key : ascii) : bool :=
  (N_of_ascii "0" <=? N_of_ascii key)%N && (N_of_ascii key <=? N_of_ascii "9")%N.

(** One call of [loop()] in which [keypad.getKey()] returns [key]. *)
Definition loop (key : ascii) (w : world) : result world :=
  if decide (key = NO_KEY) then Ok w
  else if bool_decide (state (gameData w) = GS_INPUT) && is_digit key then
    let g := gameData w in
    let* inp := wr (input g) (N.to_nat (inputCount g)) key in
    let g1 := set_inputCount (incr (inputCount g)) (set_input inp g) in
    let w1 := set_gameData g1 w in
    if (N.of_nat SECRET_LENGTH <=? inputCount g1)%N then
      let w2 := set_gameData (set_tries (incr (tries g1)) g1) w1 in
      let* w3 := checkInput w2 in
      let* solved := isSolved w3 in
      if solved then
        let w4 := lcd_print_message MESSAGE_WIN w3 in
        let w5 := digitalWrite_win true w4 in
        Ok (set_gameData (set_state GS_GAMEOVER (gameData w5)) w5)
      else if (TRIES_MAX <=? tries (gameData w3))%N then
        let w4 := lcd_print_message MESSAGE_LOSE w3 in
        let w5 := digitalWrite_lose true w4 in
        Ok (set_gameData (set_state GS_GAMEOVER (gameData w5)) w5)
      else
        let w4 := lcd_print_message MESSAGE_NEXTTRY w3 in
        Ok (set_gameData (set_state GS_ROUNDOVER (gameData w4)) w4)
    else Ok w1
  else if decide (key = BUTTON_NEWROUND) then
    match state (gameData w) with
    | GS_INPUT | GS_ROUNDOVER => Ok (resetInput w)
    | GS_GAMEOVER => newGame w
    end
  else if decide (key = BUTTON_NEWGAME) then newGame w
  else Ok w.

(** A sequence of key events, processed one call of [loop()] at a time. *)
Fixpoint run (keys : list ascii) (w : world) : result world :=
  match keys with
  | [] => Ok w
  | key :: keys' => let* w' := loop key w in run keys' w'
  end.

(** The power-on state: zero-initialised [gameData], the pool as
    initialised, both LEDs off, nothing printed. *)
Definition boot (e : entropy) : world :=
  {| gameData := {| state := GS_INPUT;
                    secret := replicate SECRET_LENGTH zero;
                    input := replicate SECRET_LENGTH zero;
                    hints := replicate SECRET_LENGTH zero;
                    inputCount := 0; tries := 0 |};
     randomDigitPool := DIGIT_POOL_INIT; rng := e;
     ledWin := false; ledLose := false; lcdMessages := [] |}.

(** [setup()]: seeds the generator (the seed is the choice of [e]) and
    starts the first game. *)
Definition setup (e : entropy) : result world := newGame (boot e).

(** * Specification vocabulary

    Predicates, the values the theorems compare the code against, and the
    concrete inputs of the examples. *)

(** The hint left at guess position [i], whose digit is [a], by the inner
    scan started at secret position [j] when the hint there was [cur]. *)
Definition scan_val (sec : list ascii) (i : nat) (a : ascii) (j : nat)
  (cur : ascii) : ascii :=
  if decide (j ≤ i ∧ sec !! i = Some a) then HINT_CORRECT
  else if decide (a ∈ drop j sec) then HINT_MISPLACED
  else cur.

(** The hint the evaluation assigns to guess digit [a] at position [i]. *)
Definition hint_for (sec : list ascii) (i : nat) (a : ascii) : ascii :=
  scan_val sec i a 0 HINT_WRONG.

(** Every one of the first [n] hints is [HINT_CORRECT]. *)
Definition all_correct (hnt : list ascii) (n : nat) : Prop :=
  ∀ i, i < n → hnt !! i = Some HINT_CORRECT.

(** An entropy source for the examples: the raw draws 3, 10, 17, ... *)
Definition entropy_example : entropy :=
  {| raw := fun k => 7 * k + 3; drawn := 0 |}.

(** A session holding the secret 1234 and the guess 2222. *)
Definition world_1234_2222 : world :=
  set_gameData
    {| state := GS_INPUT;
       secret := ["1"; "2"; "3"; "4"]%char;
       input := ["2"; "2"; "2"; "2"]%char;
       hints := replicate SECRET_LENGTH zero;
       inputCount := 4; tries := 1 |}
    (boot entropy_example).

(** [k] successive games on the same globals: [generateSecret(false)] runs
    once per game; the secrets are collected, the first game's first. *)
Fixpoint games (secret_length digit_count k : nat) (w : world)
  : result (list (list ascii) * world) :=
  match k with
  | 0 => Ok ([], w)
  | S k' =>
      let* w1 := generateSecret_at secret_length digit_count false w in
      let* (ss, w2) := games secret_length digit_count k' w1 in
      Ok (secret (gameData w1) :: ss, w2)
  end.

(** The array shapes the C declarations fix. *)
Definition wf (w : world) : Prop :=
  length (secret (gameData w)) = SECRET_LENGTH
  ∧ length (input (gameData w)) = SECRET_LENGTH
  ∧ length (hints (gameData w)) = SECRET_LENGTH
  ∧ length (randomDigitPool w) = DIGIT_COUNT.

(** The states the sketch can be in: [setup()] with some entropy source,
    then one call of [loop()] per key event. *)
Definition reachable (w : world) : Prop :=
  ∃ (e : entropy) (keys : list ascii),
    (let* w0 := setup e in run keys w0) = Ok w.

Arguments incr : simpl never.

(** Projections of updated records. *)
Ltac simpl_world :=
  cbn [bind gameData randomDigitPool rng ledWin ledLose lcdMessages
       state secret input hints inputCount tries
       set_gameData set_state set_secret set_input set_hints set_inputCount
       set_tries lcd_print_message digitalWrite_win digitalWrite_lose
       resetInput] in *.

(** The world after the evaluation of a guess completed by [key]: [h] are
    the hints, [st] the new state, [msg] the banner printed, [win] and
    [lose] the LED pins. *)
Definition evaluated (w : world) (key : ascii) (h : list ascii)
  (st : gamestate) (msg : string) (win lose : bool) : world :=
  {| gameData := {| state := st;
                    secret := secret (gameData w);
                    input := <[3:=key]> (input (gameData w));
                    hints := h;
                    inputCount := 4;
                    tries := incr (tries (gameData w)) |};
     randomDigitPool := randomDigitPool w; rng := rng w;
     ledWin := win; ledLose := lose;
     lcdMessages := msg :: lcdMessages w |}.

(** The session invariant: array shapes, the bounds on the two counters in
    terms of the state, and distinct digits in the pool and the secret. *)
Definition inv (w : world) : Prop :=
  wf w
  ∧ (inputCount (gameData w) ≤ N.of_nat SECRET_LENGTH)%N
  ∧ (state (gameData w) = GS_INPUT →
     (inputCount (gameData w) < N.of_nat SECRET_LENGTH)%N)
  ∧ (tries (gameData w) ≤ TRIES_MAX)%N
  ∧ (state (gameData w) ≠ GS_GAMEOVER → (tries (gameData w) < TRIES_MAX)%N)
  ∧ NoDup (randomDigitPool w)
  ∧ NoDup (secret (gameData w)).

(** What one call of [loop()] does to the try count: nothing, a reset by
    a new game, or the increment of an evaluation, which ends the game at
    once when the guess is solved or the count reaches [TRIES_MAX]. *)
Definition tries_step (w w' : world) : Prop :=
  tries (gameData w') = tries (gameData w)
  ∨ tries (gameData w') = 0%N
  ∨ (tries (gameData w') = (tries (gameData w) + 1)%N
     ∧ (tries (gameData w) < TRIES_MAX)%N
     ∧ (all_correct (hints (gameData w')) SECRET_LENGTH →
        state (gameData w') = GS_GAMEOVER)
     ∧ (tries (gameData w') = TRIES_MAX → state (gameData w') = GS_GAMEOVER)).

(** The three outcomes of an evaluation. *)
Inductive outcome : Type := WON | LOST | CONTINUE.

(** The outcome the sketch announces: the banner it printed last. *)
Definition announced (w : world) : option outcome :=
  match lcdMessages w with
  | m :: _ =>
      if decide (m = MESSAGE_WIN) then Some WON
      else if decide (m = MESSAGE_LOSE) then Some LOST
      else if decide (m = MESSAGE_NEXTTRY) then Some CONTINUE
      else None
  | [] => None
  end.

(** Worlds the sketch reaches from [setup()] with [entropy_example]:
    after the keys 5 5 0; after 5 0 7 6 (the secret); after
    5 5 0 0 1 * 5 7. *)
Definition pool_example : list ascii :=
  ["5"; "0"; "7"; "6"; "8"; "2"; "1"; "9"; "3"; "4"]%char.

Definition world_three_digits : world :=
  {| gameData := {| state := GS_INPUT;
                    secret := ["5"; "0"; "7"; "6"]%char;
                    input := ["5"; "5"; "0"; "000"]%char;
                    hints := replicate SECRET_LENGTH zero;
                    inputCount := 3; tries := 0 |};
     randomDigitPool := pool_example;
     rng := {| raw := raw entropy_example; drawn := 9 |};
     ledWin := false; ledLose := false; lcdMessages := [] |}.

Definition world_won : world :=
  {| gameData := {| state := GS_GAMEOVER;
                    secret := ["5"; "0"; "7"; "6"]%char;
                    input := ["5"; "0"; "7"; "6"]%char;
                    hints := replicate SECRET_LENGTH HINT_CORRECT;
                    inputCount := 4; tries := 1 |};
     randomDigitPool := pool_example;
     rng := {| raw := raw entropy_example; drawn := 9 |};
     ledWin := true; ledLose := false; lcdMessages := [MESSAGE_WIN] |}.

Definition world_second_round : world :=
  {| gameData := {| state := GS_INPUT;
                    secret := ["5"; "0"; "7"; "6"]%char;
                    input := ["5"; "7"; "0"; "0"]%char;
                    hints := [HINT_CORRECT; HINT_MISPLACED; HINT_MISPLACED;
                              HINT_MISPLACED];
                    inputCount := 2; tries := 1 |};
     randomDigitPool := pool_example;
     rng := {| raw := raw entropy_example; drawn := 9 |};
     ledWin := false; ledLose := false; lcdMessages := [MESSAGE_NEXTTRY] |}.

(** * The unit test and the display helpers *)

(** ** [checkUniques] of the unit test ([test/TestProductionCode.c]) *)

(** [SIZE_MAX] of the 64-bit host that runs the unit test; a function of
    [unit], so that the unary number is built only where it is used. *)
Definition HOST_SIZE_MAX (_ : unit) : nat := 2 ^ 64 - 1.

(** [size_t end = count - 1;], wrapping for [count = 0]. *)
Definition checkUniques_end (count : nat) : nat :=
  match count with
  | 0 => HOST_SIZE_MAX tt
  | S c => c
  end.

(** The inner loop [for(j = ...; j < bound; j++)] with [n] iterations left,
    the next at [j]: [Ok true] when some [arr[j] == arr[i]] makes the
    function return false. *)
Fixpoint checkUniques_scan (n j i : nat) (arr : list ascii) : result bool :=
  match n with
  | 0 => Ok false
  | S n' =>
      let* aj := rd arr j in
      let* ai := rd arr i in
      if decide (aj = ai) then Ok true
      else checkUniques_scan n' (S j) i arr
  end.

(** The outer loop [for(i = ...; i < end; i++)] with [n] iterations left,
    the next at [i]; the inner loop runs [j] from [i + 1] up to [bound]. *)
Fixpoint checkUniques_from (n i bound : nat) (arr : list ascii) : result bool :=
  match n with
  | 0 => Ok true
  | S n' =>
      let* dup := checkUniques_scan (bound - (i + 1)) (i + 1) i arr in
      if dup then Ok false
      else checkUniques_from n' (S i) bound arr
  end.

(** [checkUniques(arr, count)] of [test/TestProductionCode.c]: the inner
    loop runs while [j < count]. *)
Definition checkUniques (arr : list ascii) (count : nat) : result bool :=
  checkUniques_from (checkUniques_end count) 0 count arr.

(** The earlier revision of [checkUniques]: the inner loop runs while
    [j < end]. *)
Definition checkUniques_old (arr : list ascii) (count : nat) : result bool :=
  checkUniques_from (checkUniques_end count) 0 (checkUniques_end count) arr.

(** [TEST(ProductionCode, ShuffleSort)]: the value of [res] that
    [TEST_ASSERT_TRUE] receives; [srand(time(NULL))] is the choice of [e]. *)
Definition test_ShuffleSort (e : entropy) : result bool :=
  let arr := DIGIT_POOL_INIT in
  let count := length arr in
  let* (arr', e') := Harness.shuffleSort arr count e in
  checkUniques arr' count.

(** The same test body over the sketch's [shuffleSort]. *)
Definition test_ShuffleSort_sketch (e : entropy) : result bool :=
  let arr := DIGIT_POOL_INIT in
  let count := length arr in
  let* (arr', e') := shuffleSort arr count e in
  checkUniques arr' count.

(** ** The LCD helpers of the sketch *)

Definition LCD_ROWCOUNT : N := 2.
Definition LCD_COLCOUNT : N := 16.

(** The calls made on the [LiquidCrystal] object, in order. *)
Inductive lcd_call : Type :=
  | LcdSetCursor (x y : N)
  | LcdPrint (c : ascii).

(** The boundary check of [lcdPrint] and [lcdClear] on [uint8_t]
    coordinates. *)
Definition lcd_out_of_range (x y : N) : bool :=
  ((x <? 0)%N || (LCD_COLCOUNT <=? x)%N) || ((y <? 0)%N || (LCD_ROWCOUNT <=? y)%N).

(** [lcdPrint(x, y, arr, n)]; [lcd] is the log of earlier calls. *)
Definition lcdPrint (x y : N) (arr : list ascii) (n : nat) (lcd : list lcd_call)
  : result (list lcd_call) :=
  if lcd_out_of_range x y then Ok lcd
  else
    for_up n 0 (fun i log => let* c := rd arr i in Ok (log ++ [LcdPrint c]))
      (lcd ++ [LcdSetCursor x y]).

(** [lcdClear(x, y, n)]. *)
Definition lcdClear (x y : N) (n : nat) (lcd : list lcd_call)
  : result (list lcd_call) :=
  if lcd_out_of_range x y then Ok lcd
  else
    for_up n 0 (fun i log => Ok (log ++ [LcdPrint " "%char]))
      (lcd ++ [LcdSetCursor x y]).

(** Four digit keys entered one after the other. *)
Definition guess_keys (a b c d : ascii) : list ascii := [a; b; c; d].

(** The hints the evaluation computes for a whole guess. *)
Definition hints_for (sec guess : list ascii) : list ascii :=
  imap (hint_for sec) guess.

(** The LED pins in terms of the session: both off until the game is over,
    then exactly one on, the win LED with a solved guess, the lose LED with
    an unsolved one on the last try. *)
Definition led_inv (w : world) : Prop :=
  match state (gameData w) with
  | GS_GAMEOVER =>
      (ledWin w = true ∧ ledLose w = false
       ∧ input (gameData w) = secret (gameData w))
      ∨ (ledWin w = false ∧ ledLose w = true
         ∧ input (gameData w) ≠ secret (gameData w)
         ∧ tries (gameData w) = TRIES_MAX)
  | _ => ledWin w = false ∧ ledLose w = false
  end.

(** The hints on display belong to the guess on display once a round is
    over. *)
Definition hints_inv (w : world) : Prop :=
  state (gameData w) ≠ GS_INPUT →
  inputCount (gameData w) = N.of_nat SECRET_LENGTH
  ∧ hints (gameData w) = hints_for (secret (gameData w)) (input (gameData w)).

(** The world a new game leaves when the shuffle returned [pool] and the
    entropy state [e]. *)
Definition new_game_world (w : world) (pool : list ascii) (e : entropy) : world :=
  {| gameData := {| state := GS_INPUT;
                    secret := take SECRET_LENGTH pool;
                    input := input (gameData w);
                    hints := hints (gameData w);
                    inputCount := 0; tries := 0 |};
     randomDigitPool := pool; rng := e;
     ledWin := false; ledLose := false;
     lcdMessages := lcdMessages w |}.

(** The world after a digit that does not complete the guess. *)
Definition appended (w : world) (key : ascii) : world :=
  set_gameData
    (set_inputCount (inputCount (gameData w) + 1)%N
       (set_input (<[N.to_nat (inputCount (gameData w)):=key]>
                     (input (gameData w))) (gameData w))) w.

(** The transitions of the session, one constructor per row of the state
    machine: what one key event does to a world. *)
Inductive transition (w : world) (key : ascii) : world → Prop :=
  | T_ignored :
      key = NO_KEY
      ∨ (is_digit key = true ∧ state (gameData w) ≠ GS_INPUT)
      ∨ (is_digit key = false ∧ key ≠ BUTTON_NEWROUND ∧ key ≠ BUTTON_NEWGAME) →
      transition w key w
  | T_append :
      state (gameData w) = GS_INPUT → is_digit key = true →
      (inputCount (gameData w) < 3)%N →
      transition w key (appended w key)
  | T_won :
      state (gameData w) = GS_INPUT → is_digit key = true →
      inputCount (gameData w) = 3%N →
      <[3:=key]> (input (gameData w)) = secret (gameData w) →
      transition w key
        (evaluated w key
           (hints_for (secret (gameData w)) (<[3:=key]> (input (gameData w))))
           GS_GAMEOVER MESSAGE_WIN true (ledLose w))
  | T_lost :
      state (gameData w) = GS_INPUT → is_digit key = true →
      inputCount (gameData w) = 3%N →
      <[3:=key]> (input (gameData w)) ≠ secret (gameData w) →
      (TRIES_MAX ≤ incr (tries (gameData w)))%N →
      transition w key
        (evaluated w key
           (hints_for (secret (gameData w)) (<[3:=key]> (input (gameData w))))
           GS_GAMEOVER MESSAGE_LOSE (ledWin w) true)
  | T_continue :
      state (gameData w) = GS_INPUT → is_digit key = true →
      inputCount (gameData w) = 3%N →
      <[3:=key]> (input (gameData w)) ≠ secret (gameData w) →
      (incr (tries (gameData w)) < TRIES_MAX)%N →
      transition w key
        (evaluated w key
           (hints_for (secret (gameData w)) (<[3:=key]> (input (gameData w))))
           GS_ROUNDOVER MESSAGE_NEXTTRY (ledWin w) (ledLose w))
  | T_newround :
      key = BUTTON_NEWROUND → state (gameData w) ≠ GS_GAMEOVER →
      transition w key (resetInput w)
  | T_newgame (pool : list ascii) (e : entropy) :
      key = BUTTON_NEWGAME
      ∨ (key = BUTTON_NEWROUND ∧ state (gameData w) = GS_GAMEOVER) →
      shuffleSort (randomDigitPool w) DIGIT_COUNT (rng w) = Ok (pool, e) →
      transition w key (new_game_world w pool e).

(** The pool holds the ten digits and the secret is its first
    [SECRET_LENGTH] entries. *)
Definition pool_inv (w : world) : Prop :=
  randomDigitPool w ≡ₚ DIGIT_POOL_INIT
  ∧ secret (gameData w) = take SECRET_LENGTH (randomDigitPool w).

(** The digit [generateSecret(true)] writes at position [k] when the
    entropy state was [e] at position 0. *)
Definition drawn_digit (e : entropy) (k : nat) : ascii :=
  ascii_of_nat (nat_of_ascii "0" + raw e (drawn e + k) mod DIGIT_COUNT).

(** * Properties *)

(** ** The result monad and array accesses *)

Lemma bind_Ok_inv {A B : Type} (m : result A) (k : A → result B) (b : B) :
  bind m k = Ok b → ∃ a, m = Ok a ∧ k a = Ok b.
Proof. destruct m as [a|f]; simpl; [eauto | discriminate]. Qed.

Lemma rd_Ok (arr : list ascii) (i : nat) (c : ascii) :
  arr !! i = Some c → rd arr i = Ok c.
Proof. unfold rd. by intros ->. Qed.

Lemma rd_Ok_inv (arr : list ascii) (i : nat) (c : ascii) :
  rd arr i = Ok c → arr !! i = Some c.
Proof. unfold rd. destruct (arr !! i); congruence. Qed.

Lemma wr_Ok (arr : list ascii) (i : nat) (c : ascii) :
  i < length arr → wr arr i c = Ok (<[i:=c]> arr).
Proof. unfold wr. intros. by rewrite decide_True. Qed.

Lemma wr_Ok_inv (arr arr' : list ascii) (i : nat) (c : ascii) :
  wr arr i c = Ok arr' → i < length arr ∧ arr' = <[i:=c]> arr.
Proof. unfold wr. case_decide; [|discriminate]. intros [= <-]. done. Qed.

Lemma memset_Ok (arr : list ascii) (c : ascii) (n : nat) :
  length arr = n → memset arr c n = Ok (replicate n c).
Proof.
  intros <-. unfold memset. rewrite decide_True by lia.
  by rewrite drop_all, app_nil_r.
Qed.

(** ** Guess evaluation *)

Lemma scan_secret_val (inp sec : list ascii) (i : nat) (a : ascii)
  (Hinp : inp !! i = Some a) (count : nat) :
  ∀ (j : nat) (hnt : list ascii) (cur : ascii),
    j + count = length sec →
    hnt !! i = Some cur →
    scan_secret count j i inp sec hnt = Ok (<[i:=scan_val sec i a j cur]> hnt).
Proof.
  induction count as [|count IH]; intros j hnt cur Hlen Hcur; simpl.
  - unfold scan_val. rewrite decide_False.
    + rewrite drop_ge by lia. rewrite decide_False by (by intros ?%elem_of_nil).
      by rewrite list_insert_id.
    + intros [Hji Hsec]. apply lookup_lt_Some in Hsec. lia.
  - rewrite (rd_Ok _ _ _ Hinp); simpl.
    destruct (lookup_lt_is_Some_2 sec j) as [b Hb]; [lia|].
    rewrite (rd_Ok _ _ _ Hb); simpl.
    assert (Hi : i < length hnt) by (by eapply lookup_lt_Some).
    assert (Hdrop : drop j sec = b :: drop (S j) sec)
      by (by apply drop_S).
    destruct (decide (a = b)) as [<-|Hab].
    + destruct (decide (i = j)) as [<-|Hij].
      * rewrite wr_Ok by done. unfold scan_val.
        by rewrite decide_True by (split; [lia|done]).
      * rewrite wr_Ok by done; simpl.
        rewrite (IH (S j) _ HINT_MISPLACED); [|lia|by apply list_lookup_insert_eq].
        rewrite list_insert_insert_eq. do 2 f_equal.
        unfold scan_val.
        destruct (decide (S j ≤ i ∧ sec !! i = Some a)) as [[??]|Hn].
        { by rewrite decide_True by (split; [lia|done]). }
        rewrite (decide_False (P := j ≤ i ∧ sec !! i = Some a))
          by (intros [??]; apply Hn; split; [lia|done]).
        rewrite (decide_True (P := a ∈ drop j sec))
          by (rewrite Hdrop; apply elem_of_cons; by left).
        by destruct (decide (a ∈ drop (S j) sec)).
    + rewrite (IH (S j) hnt cur); [|lia|done]. do 2 f_equal.
      unfold scan_val.
      destruct (decide (S j ≤ i ∧ sec !! i = Some a)) as [[??]|Hn].
      { by rewrite decide_True by (split; [lia|done]). }
      rewrite (decide_False (P := j ≤ i ∧ sec !! i = Some a)).
      2:{ intros [Hle Hs]. destruct (decide (i = j)) as [->|];
          [congruence | apply Hn; split; [lia|done]]. }
      rewrite Hdrop.
      destruct (decide (a ∈ drop (S j) sec)).
      * by rewrite decide_True by (apply elem_of_cons; by right).
      * rewrite decide_False; [done|].
        intros [?|?]%elem_of_cons; congruence.
Qed.

Lemma for_up_scan (inp sec : list ascii) (n count : nat) :
  length inp = n → length sec = n →
  ∀ (i0 : nat) (h : list ascii),
    i0 + count = n → length h = n →
    ∃ h', for_up count i0 (fun i h => scan_secret n 0 i inp sec h) h = Ok h'
          ∧ length h' = n
          ∧ (∀ k, k < i0 → h' !! k = h !! k)
          ∧ (∀ k a cur, i0 ≤ k → inp !! k = Some a → h !! k = Some cur →
               h' !! k = Some (scan_val sec k a 0 cur)).
Proof.
  intros Hinp Hsec.
  induction count as [|count IH]; intros i0 h Hcnt Hh; simpl.
  - exists h. split_and!; [done|done|done|].
    intros k a cur Hk Hka. apply lookup_lt_Some in Hka. lia.
  - destruct (lookup_lt_is_Some_2 inp i0) as [a0 Ha0]; [lia|].
    destruct (lookup_lt_is_Some_2 h i0) as [c0 Hc0]; [lia|].
    rewrite (scan_secret_val inp sec i0 a0 Ha0 n 0 h c0) by (done || lia); simpl.
    destruct (IH (S i0) (<[i0:=scan_val sec i0 a0 0 c0]> h))
      as (h' & Hrun & Hlen & Hlow & Hhigh); [lia|by rewrite length_insert|].
    exists h'. split_and!; [done|done|..].
    + intros k Hk. rewrite Hlow by lia. apply list_lookup_insert_ne. lia.
    + intros k a cur Hk Hka Hcur.
      destruct (decide (k = i0)) as [->|Hne].
      * rewrite Hlow by lia. rewrite list_lookup_insert_eq by lia.
        congruence.
      * apply Hhigh; [lia|done|].
        by rewrite list_lookup_insert_ne by lia.
Qed.

Lemma checkInput_n_hints (inp sec hnt : list ascii) (n : nat) :
  length inp = n → length sec = n → length hnt = n →
  ∃ h, checkInput_n inp sec hnt n = Ok h
       ∧ length h = n
       ∧ ∀ i a, inp !! i = Some a → h !! i = Some (hint_for sec i a).
Proof.
  intros Hinp Hsec Hhnt. unfold checkInput_n.
  rewrite memset_Ok by done; simpl.
  destruct (for_up_scan inp sec n n Hinp Hsec 0 (replicate n HINT_WRONG))
    as (h & Hrun & Hlen & _ & Hhigh); [lia|by rewrite length_replicate|].
  exists h. split_and!; [done|done|].
  intros i a Hia. apply Hhigh; [lia|done|].
  apply lookup_replicate_2. apply lookup_lt_Some in Hia. lia.
Qed.

Lemma hint_for_cases (sec : list ascii) (i : nat) (a b : ascii) :
  sec !! i = Some b →
  (hint_for sec i a = HINT_CORRECT ↔ a = b)
  ∧ (hint_for sec i a = HINT_MISPLACED ↔
       a ≠ b ∧ ∃ j, j ≠ i ∧ sec !! j = Some a)
  ∧ (hint_for sec i a = HINT_WRONG ↔
       a ≠ b ∧ ¬ ∃ j, j ≠ i ∧ sec !! j = Some a).
Proof.
  intros Hb. unfold hint_for, scan_val. rewrite drop_0.
  destruct (decide (0 ≤ i ∧ sec !! i = Some a)) as [[_ Ha]|Hn].
  - assert (a = b) by congruence. subst b.
    split_and!; (split; [try discriminate; done | try done; by intros [? _]]).
  - assert (Hab : a ≠ b).
    { intros ->. apply Hn. split; [lia|done]. }
    destruct (decide (a ∈ sec)) as [Hin|Hout].
    + apply list_elem_of_lookup in Hin as [j Hj].
      assert (j ≠ i) by (intros ->; congruence).
      split_and!; (split; [try discriminate; try done; eauto | ]).
      * done.
      * done.
      * intros [_ Hno]. destruct Hno. eauto.
    + assert (Hno : ¬ ∃ j, j ≠ i ∧ sec !! j = Some a).
      { intros (j & _ & Hj). apply Hout. by eapply list_elem_of_lookup_2. }
      split_and!; (split; [try discriminate; try done | ]).
      * done.
      * intros [_ ?]. done.
      * done.
Qed.

(** C1: for a guess and a secret of length [SECRET_LENGTH], [checkInput]
    returns, and the hint at position [i] is [HINT_CORRECT] exactly when
    the guess digit equals the secret digit there, [HINT_MISPLACED] exactly
    when it differs but occurs at another position of the secret, and
    [HINT_WRONG] exactly when neither holds.  [HINT_MISPLACED] is not
    rationed: two guess positions holding the same digit, which the secret
    holds elsewhere only, both earn it. *)
Theorem checkInput_classifies (w : world) :
  length (input (gameData w)) = SECRET_LENGTH →
  length (secret (gameData w)) = SECRET_LENGTH →
  length (hints (gameData w)) = SECRET_LENGTH →
  ∃ h : list ascii,
    checkInput w = Ok (set_gameData (set_hints h (gameData w)) w)
    ∧ length h = SECRET_LENGTH
    ∧ (∀ (i : nat) (a b : ascii),
         input (gameData w) !! i = Some a →
         secret (gameData w) !! i = Some b →
         (h !! i = Some HINT_CORRECT ↔ a = b)
         ∧ (h !! i = Some HINT_MISPLACED ↔
              a ≠ b ∧ ∃ j, j ≠ i ∧ secret (gameData w) !! j = Some a)
         ∧ (h !! i = Some HINT_WRONG ↔
              a ≠ b ∧ ¬ ∃ j, j ≠ i ∧ secret (gameData w) !! j = Some a))
    ∧ (∀ (i1 i2 j : nat) (a : ascii),
         i1 ≠ i2 →
         input (gameData w) !! i1 = Some a →
         input (gameData w) !! i2 = Some a →
         secret (gameData w) !! j = Some a →
         secret (gameData w) !! i1 ≠ Some a →
         secret (gameData w) !! i2 ≠ Some a →
         h !! i1 = Some HINT_MISPLACED ∧ h !! i2 = Some HINT_MISPLACED).
Proof.
  intros Hinp Hsec Hhnt.
  destruct (checkInput_n_hints _ _ _ _ Hinp Hsec Hhnt) as (h & Hrun & Hlen & Hh).
  exists h. unfold checkInput. rewrite Hrun; simpl.
  split_and!; [done|done|..].
  - intros i a b Ha Hb. rewrite (Hh i a Ha).
    destruct (hint_for_cases _ i a b Hb) as (HC & HM & HW).
    split_and!.
    + rewrite <- HC. split; [by intros [= ->] | by intros ->].
    + rewrite <- HM. split; [by intros [= ->] | by intros ->].
    + rewrite <- HW. split; [by intros [= ->] | by intros ->].
  - intros i1 i2 j a Hne Ha1 Ha2 Hj Hs1 Hs2.
    assert (Hmis : ∀ i, input (gameData w) !! i = Some a →
                        secret (gameData w) !! i ≠ Some a →
                        h !! i = Some HINT_MISPLACED).
    { intros i Ha Hs. rewrite (Hh i a Ha).
      destruct (lookup_lt_is_Some_2 (secret (gameData w)) i) as [b Hb].
      { apply lookup_lt_Some in Ha. lia. }
      destruct (hint_for_cases _ i a b Hb) as (_ & HM & _).
      f_equal. apply HM. split; [congruence|].
      exists j. split; [intros ->; congruence | done]. }
    split; by apply Hmis.
Qed.

Lemma checkInput_classifies_witness :
  ∃ h : list ascii,
    checkInput world_1234_2222
    = Ok (set_gameData (set_hints h (gameData world_1234_2222)) world_1234_2222)
    ∧ length h = SECRET_LENGTH
    ∧ (∀ (i : nat) (a b : ascii),
         input (gameData world_1234_2222) !! i = Some a →
         secret (gameData world_1234_2222) !! i = Some b →
         (h !! i = Some HINT_CORRECT ↔ a = b)
         ∧ (h !! i = Some HINT_MISPLACED ↔
              a ≠ b ∧ ∃ j, j ≠ i ∧ secret (gameData world_1234_2222) !! j = Some a)
         ∧ (h !! i = Some HINT_WRONG ↔
              a ≠ b ∧ ¬ ∃ j, j ≠ i ∧ secret (gameData world_1234_2222) !! j = Some a))
    ∧ (∀ (i1 i2 j : nat) (a : ascii),
         i1 ≠ i2 →
         input (gameData world_1234_2222) !! i1 = Some a →
         input (gameData world_1234_2222) !! i2 = Some a →
         secret (gameData world_1234_2222) !! j = Some a →
         secret (gameData world_1234_2222) !! i1 ≠ Some a →
         secret (gameData world_1234_2222) !! i2 ≠ Some a →
         h !! i1 = Some HINT_MISPLACED ∧ h !! i2 = Some HINT_MISPLACED).
Proof.
  apply (checkInput_classifies world_1234_2222); reflexivity.
Defined.

(** The examples of the specification. *)
Example checkInput_1234_1243 :
  checkInput_n ["1"; "2"; "4"; "3"]%char ["1"; "2"; "3"; "4"]%char
               (replicate 4 zero) 4
  = Ok [HINT_CORRECT; HINT_CORRECT; HINT_MISPLACED; HINT_MISPLACED].
Proof. reflexivity. Qed.

Example checkInput_1234_5678 :
  checkInput_n ["5"; "6"; "7"; "8"]%char ["1"; "2"; "3"; "4"]%char
               (replicate 4 zero) 4
  = Ok [HINT_WRONG; HINT_WRONG; HINT_WRONG; HINT_WRONG].
Proof. reflexivity. Qed.

Example checkInput_1234_2222 :
  checkInput_n ["2"; "2"; "2"; "2"]%char ["1"; "2"; "3"; "4"]%char
               (replicate 4 zero) 4
  = Ok [HINT_MISPLACED; HINT_CORRECT; HINT_MISPLACED; HINT_MISPLACED].
Proof. reflexivity. Qed.

(** ** Loops *)

Lemma bind_Ok_r {A : Type} (m : result A) : bind m Ok = m.
Proof. by destruct m. Qed.

Section loops.
Context {St : Type} (body : nat → St → result St).

(** The last iteration of a loop down to 0 is the one at index 0. *)
Lemma for_down_split (n : nat) (s : St) :
  1 ≤ n →
  for_down n 0 body s = (let* s' := for_down n 1 body s in body 0 s').
Proof.
  revert s. induction n as [|i IH]; intros s Hn; [lia|].
  destruct i as [|i].
  - simpl. by rewrite bind_Ok_r.
  - change (for_down (S (S i)) 0 body s)
      with (let* s' := body (S i) s in for_down (S i) 0 body s').
    change (for_down (S (S i)) 1 body s)
      with (if decide (1 ≤ S i)
            then let* s' := body (S i) s in for_down (S i) 1 body s'
            else Ok s).
    rewrite decide_True by lia.
    destruct (body (S i) s) as [s'|f]; simpl; [|done].
    apply IH. lia.
Qed.

Variable P : St → Prop.

(** A loop whose body preserves [P] and returns under [P] returns, in a
    state where [P] holds. *)
Lemma for_down_Ok (stop n : nat) (s : St) :
  (∀ i s0, stop ≤ i < n → P s0 → ∃ s1, body i s0 = Ok s1 ∧ P s1) →
  P s →
  ∃ s', for_down n stop body s = Ok s' ∧ P s'.
Proof.
  revert s. induction n as [|i IH]; intros s Hbody Hs; simpl; [eauto|].
  case_decide; [|eauto].
  destruct (Hbody i s) as (s1 & -> & Hs1); [lia|done|]; simpl.
  apply IH; [|done]. intros j s0 Hj. apply Hbody. lia.
Qed.

(** Whatever a loop returns satisfies every property its body
    preserves. *)
Lemma for_down_preserves (stop n : nat) (s s' : St) :
  (∀ i s0 s1, P s0 → body i s0 = Ok s1 → P s1) →
  P s → for_down n stop body s = Ok s' → P s'.
Proof.
  intros Hbody. revert s. induction n as [|i IH]; intros s Hs; simpl.
  - by intros [= <-].
  - case_decide; [|by intros [= <-]].
    intros (s1 & Hs1 & Hrest)%bind_Ok_inv. eauto.
Qed.
End loops.

(** ** The shuffle *)

Lemma random_lt (n : nat) (e : entropy) : 0 < n → (random n e).1 < n.
Proof.
  destruct n as [|n]; [lia|]. intros _.
  change ((random (S n) e).1) with (raw e (drawn e) mod S n).
  apply Nat.mod_upper_bound. lia.
Qed.

Lemma draw_z_pos (i : nat) (e : entropy) : 1 ≤ (draw_z i e).1.
Proof. unfold draw_z. destruct (randomNumber i e). simpl. lia. Qed.

Lemma draw_z_le (i : nat) (e : entropy) : 1 ≤ i → (draw_z i e).1 ≤ i.
Proof.
  intros Hi. unfold draw_z, randomNumber. rewrite decide_True by lia.
  pose proof (random_lt i e) as Hlt.
  destruct (random i e) as [r e']. simpl in *. lia.
Qed.

Lemma draw_z_0 (e : entropy) : draw_z 0 e = (1, e).
Proof. reflexivity. Qed.

Lemma swap_Ok (arr : list ascii) (i z : nat) :
  i < length arr → z < length arr →
  ∃ x y, arr !! i = Some x ∧ arr !! z = Some y
         ∧ swap arr i z = Ok (<[z:=x]> (<[i:=y]> arr)).
Proof.
  intros Hi Hz.
  destruct (lookup_lt_is_Some_2 arr i Hi) as [x Hx].
  destruct (lookup_lt_is_Some_2 arr z Hz) as [y Hy].
  exists x, y. split_and!; [done|done|].
  unfold swap. rewrite (rd_Ok _ _ _ Hx), (rd_Ok _ _ _ Hy); simpl.
  rewrite wr_Ok by done; simpl.
  by rewrite wr_Ok by (by rewrite length_insert).
Qed.

Lemma swap_Ok_inv (arr arr' : list ascii) (i z : nat) :
  swap arr i z = Ok arr' →
  ∃ x y, arr !! i = Some x ∧ arr !! z = Some y
         ∧ arr' = <[z:=x]> (<[i:=y]> arr).
Proof.
  unfold swap.
  intros (x & Hx%rd_Ok_inv & H)%bind_Ok_inv.
  apply bind_Ok_inv in H as (y & Hy%rd_Ok_inv & H).
  apply bind_Ok_inv in H as (arr1 & [_ ->]%wr_Ok_inv & [_ ->]%wr_Ok_inv).
  eauto.
Qed.

Lemma swap_Permutation (arr arr' : list ascii) (i z : nat) :
  swap arr i z = Ok arr' → arr' ≡ₚ arr.
Proof.
  intros (x & y & Hx & Hy & ->)%swap_Ok_inv.
  by apply Permutation_insert_swap.
Qed.

Lemma swap_lookup_other (arr arr' : list ascii) (i z k : nat) :
  swap arr i z = Ok arr' → k ≠ i → k ≠ z → arr' !! k = arr !! k.
Proof.
  intros (x & y & Hx & Hy & ->)%swap_Ok_inv Hi Hz.
  by rewrite !list_lookup_insert_ne by done.
Qed.

Lemma shuffle_body_Permutation (i : nat) (st st' : list ascii * entropy) :
  shuffle_body i st = Ok st' → st'.1 ≡ₚ st.1.
Proof.
  destruct st as [arr e]. unfold shuffle_body.
  destruct (draw_z i e) as [z e'].
  intros (arr' & Hswap & [= <-])%bind_Ok_inv. simpl.
  by eapply swap_Permutation.
Qed.

Lemma shuffleSort_Permutation (arr arr' : list ascii) (n : nat) (e e' : entropy) :
  shuffleSort arr n e = Ok (arr', e') → arr' ≡ₚ arr.
Proof.
  unfold shuffleSort. intros Hrun.
  apply (for_down_preserves shuffle_body
           (λ st : list ascii * entropy, st.1 ≡ₚ arr)
           0 n (arr, e) (arr', e')); [|reflexivity|exact Hrun].
  intros i s0 s1 Hs0 Hb; simpl in *. etrans; [|exact Hs0].
  by eapply shuffle_body_Permutation.
Qed.

(** An iteration at an index [i ≥ 1] inside the array returns, permutes the
    array and leaves position 0 alone. *)
Lemma shuffle_body_Ok (i : nat) (arr : list ascii) (e : entropy) :
  1 ≤ i < length arr →
  ∃ arr' e', shuffle_body i (arr, e) = Ok (arr', e')
             ∧ length arr' = length arr
             ∧ arr' !! 0 = arr !! 0.
Proof.
  intros Hi. unfold shuffle_body.
  pose proof (draw_z_pos i e) as Hz1. pose proof (draw_z_le i e) as Hz2.
  destruct (draw_z i e) as [z e']. simpl in *.
  destruct (swap_Ok arr i z) as (x & y & Hx & Hy & Hswap); [lia|lia|].
  rewrite Hswap; simpl. eexists _, _. split_and!; [done|..].
  - by rewrite !length_insert.
  - by rewrite !list_lookup_insert_ne by lia.
Qed.

(** The iterations at [n-1], ..., [1] return and never touch position 0. *)
Lemma shuffle_down_to_1 (arr : list ascii) (n : nat) (e : entropy) :
  n ≤ length arr →
  ∃ arr1 e1, for_down n 1 shuffle_body (arr, e) = Ok (arr1, e1)
             ∧ length arr1 = length arr
             ∧ arr1 !! 0 = arr !! 0.
Proof.
  intros Hn.
  destruct (for_down_Ok shuffle_body
              (λ st, length st.1 = length arr ∧ st.1 !! 0 = arr !! 0)
              1 n (arr, e)) as ([arr1 e1] & Hrun & Hlen & H0).
  - intros i [arr0 e0] Hi [Hlen H0]; simpl in Hlen, H0.
    destruct (shuffle_body_Ok i arr0 e0) as (arr' & e' & Hb & Hlen' & H0'); [lia|].
    exists (arr', e'). split; [done|]. simpl. split; congruence.
  - done.
  - eauto.
Qed.

Lemma shuffle_body_0 (arr : list ascii) (e : entropy) :
  shuffle_body 0 (arr, e) = (let* arr' := swap arr 0 1 in Ok (arr', e)).
Proof. reflexivity. Qed.

(** The whole shuffle: the iterations down to 1, then the swap of positions
    0 and 1 that the iteration at [i = 0] performs. *)
Lemma shuffleSort_split (arr : list ascii) (n : nat) (e : entropy) :
  1 ≤ n → n ≤ length arr →
  ∃ arr1 e1, shuffleSort_spec arr n e = Ok (arr1, e1)
             ∧ length arr1 = length arr
             ∧ arr1 !! 0 = arr !! 0
             ∧ shuffleSort arr n e = (let* arr2 := swap arr1 0 1 in Ok (arr2, e1)).
Proof.
  intros Hn1 Hn.
  destruct (shuffle_down_to_1 arr n e Hn) as (arr1 & e1 & Hrun & Hlen & H0).
  exists arr1, e1. split_and!; [done|done|done|].
  unfold shuffleSort. rewrite for_down_split by done.
  by rewrite Hrun.
Qed.

Lemma shuffle_body_swap (i : nat) (arr : list ascii) (e : entropy) :
  shuffle_body i (arr, e)
  = (let* arr' := swap arr i (draw_z i e).1 in Ok (arr', (draw_z i e).2)).
Proof. unfold shuffle_body. by destruct (draw_z i e). Qed.

Lemma swap_values (arr : list ascii) (i z : nat) (x y : ascii) :
  arr !! i = Some x → arr !! z = Some y →
  swap arr i z = Ok (<[z:=x]> (<[i:=y]> arr)).
Proof.
  intros Hx Hy. unfold swap.
  rewrite (rd_Ok _ _ _ Hx), (rd_Ok _ _ _ Hy). cbn [bind].
  rewrite wr_Ok by (by eapply lookup_lt_Some). cbn [bind].
  apply wr_Ok. rewrite length_insert. by eapply lookup_lt_Some.
Qed.

Lemma draw_z_1 (e : entropy) : draw_z 1 e = (1, (next e).2).
Proof.
  unfold draw_z, randomNumber. rewrite decide_True by lia.
  change (random 1 e) with (raw e (drawn e) mod 1, (next e).2).
  by rewrite Nat.mod_1_r.
Qed.

(** C2: the code does not stop at [i = 1] as the claim, and the source's
    own comment ("a random element of lower index"), have it.  Every
    iteration, at whatever index [i], swaps [arr[i]] with [arr[z]] for the
    [z] it draws, and for [i ≥ 1] that [z] lies in [1, i], as claimed.  But
    [shuffleSort(arr, n)] with [n ≥ 1] is the loop from [n-1] down to 1
    followed by one more iteration at [i = 0]; there the guarded helper
    returns 0 without a draw, [z = 1] lies outside [1, 0] and above [i],
    and [arr[0]] is swapped with [arr[1]].  So on any array starting
    [x, y] with [n = 2] the code returns [y, x] where the loop down to 1
    returns [x, y]; on a one-element array with [n = 1] the code reads
    [arr[1]] out of bounds where the loop down to 1 does nothing; and on
    the sketch's own pool the two give different arrays. *)
Theorem shuffleSort_reaches_index_0 :
  (∀ i arr e,
     shuffle_body i (arr, e)
     = (let* arr' := swap arr i (draw_z i e).1 in Ok (arr', (draw_z i e).2)))
  ∧ (∀ arr i z x y, arr !! i = Some x → arr !! z = Some y →
       swap arr i z = Ok (<[z:=x]> (<[i:=y]> arr)))
  ∧ (∀ i e, 1 ≤ i → 1 ≤ (draw_z i e).1 ≤ i)
  ∧ (∀ e, draw_z 0 e = (1, e) ∧ ¬ (1 ≤ (draw_z 0 e).1 ≤ 0))
  ∧ (∀ arr n e, 1 ≤ n →
       shuffleSort arr n e
       = (let* st := shuffleSort_spec arr n e in shuffle_body 0 st))
  ∧ (∀ arr e,
       shuffle_body 0 (arr, e) = (let* arr' := swap arr 0 1 in Ok (arr', e)))
  ∧ (∀ x y rest e,
       shuffleSort (x :: y :: rest) 2 e = Ok (y :: x :: rest, (next e).2)
       ∧ shuffleSort_spec (x :: y :: rest) 2 e
         = Ok (x :: y :: rest, (next e).2))
  ∧ (∀ x e,
       shuffleSort [x] 1 e = Fault OutOfBounds
       ∧ shuffleSort_spec [x] 1 e = Ok ([x], e))
  ∧ shuffleSort DIGIT_POOL_INIT DIGIT_COUNT entropy_example
    = Ok (["5"; "0"; "7"; "6"; "8"; "2"; "1"; "9"; "3"; "4"]%char,
          {| raw := raw entropy_example; drawn := 9 |})
  ∧ shuffleSort_spec DIGIT_POOL_INIT DIGIT_COUNT entropy_example
    = Ok (["0"; "5"; "7"; "6"; "8"; "2"; "1"; "9"; "3"; "4"]%char,
          {| raw := raw entropy_example; drawn := 9 |}).
Proof.
  split_and!.
  - apply shuffle_body_swap.
  - apply swap_values.
  - intros i e Hi. split; [apply draw_z_pos|by apply draw_z_le].
  - intros e. split; [reflexivity|]. rewrite draw_z_0. simpl. lia.
  - intros arr n e Hn. unfold shuffleSort, shuffleSort_spec.
    by apply for_down_split.
  - intros arr e. apply shuffle_body_0.
  - intros x y rest e.
    assert (Hspec : shuffleSort_spec (x :: y :: rest) 2 e
                    = Ok (x :: y :: rest, (next e).2)).
    { unfold shuffleSort_spec. cbn [for_down].
      rewrite decide_True by lia.
      rewrite shuffle_body_swap, draw_z_1. reflexivity. }
    split; [|exact Hspec].
    unfold shuffleSort. rewrite for_down_split by lia.
    fold (shuffleSort_spec (x :: y :: rest) 2 e). rewrite Hspec.
    reflexivity.
  - intros x e. split; reflexivity.
  - reflexivity.
  - reflexivity.
Qed.

(** ** The shuffle of the test harness *)

Lemma harness_shuffle_body_0 (st : list ascii * entropy) :
  Harness.shuffle_body 0 st = Fault DivisionByZero.
Proof. by destruct st. Qed.

Lemma harness_random_pos (n : nat) (e : entropy) :
  1 ≤ n → Harness.random n e = Ok ((next e).1 mod n, (next e).2).
Proof. destruct n; [lia|done]. Qed.

Lemma harness_shuffle_body_Ok (i : nat) (arr : list ascii) (e : entropy) :
  1 ≤ i < length arr →
  ∃ arr' e', Harness.shuffle_body i (arr, e) = Ok (arr', e')
             ∧ length arr' = length arr.
Proof.
  intros Hi. unfold Harness.shuffle_body.
  rewrite harness_random_pos by lia. cbn [bind].
  pose proof (Nat.mod_upper_bound (next e).1 i) as Hr.
  destruct (swap_Ok arr i ((next e).1 mod i + 1))
    as (x & y & Hx & Hy & Hswap); [lia|lia|].
  rewrite Hswap; simpl. eexists _, _. split; [done|].
  by rewrite !length_insert.
Qed.

Lemma harness_shuffle_down_to_1 (arr : list ascii) (n : nat) (e : entropy) :
  n ≤ length arr →
  ∃ st, for_down n 1 Harness.shuffle_body (arr, e) = Ok st.
Proof.
  intros Hn.
  destruct (for_down_Ok Harness.shuffle_body (λ st, length st.1 = length arr)
              1 n (arr, e)) as (st & Hrun & _); [|done|eauto].
  intros i [arr0 e0] Hi Hlen; simpl in Hlen.
  destruct (harness_shuffle_body_Ok i arr0 e0) as (arr' & e' & Hb & Hlen'); [lia|].
  exists (arr', e'). split; [done|]. simpl. congruence.
Qed.

(** C10: for every [n ≥ 1] the harness shuffle completes the iterations at
    [n-1], ..., [1] and then, at [i = 0], evaluates [random(0)], a modulo
    by zero, so the whole call faults there.  The sketch's [randomNumber]
    returns 0 for [n = 0] instead, and its shuffle ends with the swap of
    positions 0 and 1. *)
Theorem harness_shuffle_modulo_by_zero (arr : list ascii) (n : nat) (e : entropy) :
  1 ≤ n → n ≤ length arr →
  (∃ st, for_down n 1 Harness.shuffle_body (arr, e) = Ok st
         ∧ Harness.random 0 st.2 = Fault DivisionByZero
         ∧ Harness.shuffle_body 0 st = Fault DivisionByZero)
  ∧ Harness.shuffleSort arr n e = Fault DivisionByZero
  ∧ (∀ e0, randomNumber 0 e0 = (0, e0))
  ∧ (∃ arr1 e1,
       for_down n 1 shuffle_body (arr, e) = Ok (arr1, e1)
       ∧ shuffle_body 0 (arr1, e1) = (let* arr2 := swap arr1 0 1 in Ok (arr2, e1))
       ∧ shuffleSort arr n e = (let* arr2 := swap arr1 0 1 in Ok (arr2, e1))
       ∧ (2 ≤ length arr →
          ∃ x y, arr1 !! 0 = Some x ∧ arr1 !! 1 = Some y
                 ∧ shuffleSort arr n e = Ok (<[1:=x]> (<[0:=y]> arr1), e1))).
Proof.
  intros Hn1 Hn.
  destruct (harness_shuffle_down_to_1 arr n e Hn) as (st & Hst).
  split_and!.
  - exists st. split_and!; [done|done|apply harness_shuffle_body_0].
  - unfold Harness.shuffleSort. rewrite for_down_split by done.
    rewrite Hst; simpl. apply harness_shuffle_body_0.
  - done.
  - destruct (shuffleSort_split arr n e Hn1 Hn)
      as (arr1 & e1 & Hspec & Hlen1 & H0 & Hrun).
    exists arr1, e1. split_and!; [done|done|done|].
    intros Hlen.
    destruct (swap_Ok arr1 0 1) as (x & y & Hx & Hy & Hswap); [lia|lia|].
    exists x, y. split_and!; [done|done|].
    by rewrite Hrun, Hswap.
Qed.

Lemma harness_shuffle_modulo_by_zero_witness :
  Harness.shuffleSort DIGIT_POOL_INIT DIGIT_COUNT entropy_example
  = Fault DivisionByZero.
Proof.
  apply (harness_shuffle_modulo_by_zero DIGIT_POOL_INIT DIGIT_COUNT entropy_example);
    vm_compute; lia.
Defined.

(** ** Secret generation *)

Lemma shuffleSort_Ok (arr : list ascii) (n : nat) (e : entropy) :
  n ≤ length arr → (n = 1 → 2 ≤ length arr) →
  ∃ arr' e', shuffleSort arr n e = Ok (arr', e').
Proof.
  intros Hn H1. destruct (decide (n = 0)) as [->|Hn0]; [by eexists _, _|].
  destruct (shuffleSort_split arr n e) as (arr1 & e1 & _ & Hlen1 & _ & ->);
    [lia|done|].
  destruct (swap_Ok arr1 0 1) as (x & y & _ & _ & ->); [lia|lia|].
  by eexists _, _.
Qed.

(** The copy loop of [generateSecret]: [secret[i] = pool[i]] for
    [i < count]. *)
Lemma copy_pool_Ok (pool : list ascii) (count : nat) :
  ∀ (i0 : nat) (sec : list ascii),
    i0 + count ≤ length pool → i0 + count ≤ length sec →
    ∃ sec', for_up count i0 (fun i sec => let* c := rd pool i in wr sec i c) sec
            = Ok sec'
            ∧ length sec' = length sec
            ∧ (∀ k, k < i0 → sec' !! k = sec !! k)
            ∧ (∀ k, i0 ≤ k < i0 + count → sec' !! k = pool !! k).
Proof.
  induction count as [|count IH]; intros i0 sec Hpool Hsec; simpl.
  - exists sec. split_and!; [done|done|done|]. intros k ?. lia.
  - destruct (lookup_lt_is_Some_2 pool i0) as [c Hc]; [lia|].
    rewrite (rd_Ok _ _ _ Hc); simpl. rewrite wr_Ok by lia; simpl.
    destruct (IH (S i0) (<[i0:=c]> sec)) as (sec' & Hrun & Hlen & Hlow & Hhigh);
      [lia|rewrite length_insert; lia|].
    exists sec'. split_and!; [done|by rewrite Hlen, length_insert|..].
    + intros k Hk. rewrite Hlow by lia. apply list_lookup_insert_ne. lia.
    + intros k Hk. destruct (decide (k = i0)) as [->|Hne].
      * rewrite Hlow by lia. rewrite list_lookup_insert_eq by lia. done.
      * apply Hhigh. lia.
Qed.

Lemma copy_pool_take (pool sec : list ascii) (n : nat) :
  n ≤ length pool → length sec = n →
  for_up n 0 (fun i sec => let* c := rd pool i in wr sec i c) sec
  = Ok (take n pool).
Proof.
  intros Hpool Hsec.
  destruct (copy_pool_Ok pool n 0 sec) as (sec' & -> & Hlen & _ & Hhigh);
    [lia|lia|].
  f_equal. apply list_eq. intros k.
  destruct (decide (k < n)) as [Hk|Hk].
  - rewrite lookup_take_lt by done. apply Hhigh. lia.
  - rewrite lookup_take_ge by lia. apply lookup_ge_None. lia.
Qed.

(** With duplicates disallowed the generator is the shuffle followed by
    taking the first [secret_length] pool entries. *)
Lemma generateSecret_at_false (secret_length digit_count : nat) (w : world) :
  secret_length ≤ digit_count →
  length (randomDigitPool w) = digit_count →
  length (secret (gameData w)) = secret_length →
  generateSecret_at secret_length digit_count false w
  = (let* (pool, e) := shuffleSort (randomDigitPool w) digit_count (rng w) in
     Ok {| gameData := set_secret (take secret_length pool) (gameData w);
           randomDigitPool := pool; rng := e;
           ledWin := ledWin w; ledLose := ledLose w;
           lcdMessages := lcdMessages w |}).
Proof.
  intros Hle Hpool Hsec. unfold generateSecret_at.
  destruct (shuffleSort (randomDigitPool w) digit_count (rng w))
    as [[pool e]|f] eqn:Hsh; simpl; [|done].
  apply shuffleSort_Permutation, Permutation_length in Hsh.
  by rewrite copy_pool_take by lia.
Qed.

Lemma generateSecret_at_false_inv (secret_length digit_count : nat) (w w' : world) :
  secret_length ≤ digit_count →
  length (randomDigitPool w) = digit_count →
  length (secret (gameData w)) = secret_length →
  generateSecret_at secret_length digit_count false w = Ok w' →
  randomDigitPool w' ≡ₚ randomDigitPool w
  ∧ secret (gameData w') = take secret_length (randomDigitPool w')
  ∧ length (secret (gameData w')) = secret_length.
Proof.
  intros Hle Hpool Hsec. rewrite generateSecret_at_false by done.
  intros ([pool e] & Hsh & [= <-])%bind_Ok_inv. simpl.
  apply shuffleSort_Permutation in Hsh.
  split_and!; [done|done|].
  rewrite length_take_le; [done|]. apply Permutation_length in Hsh. lia.
Qed.

(** C4: with duplicates disallowed, over any number of successive games
    (the pool is shuffled in place again each time) every secret has
    [secret_length] pairwise distinct digits, for any
    [secret_length ≤ digit_count], since the shuffle only permutes the pool
    of distinct digits.  The games do produce their secrets unless the pool
    has a single entry, where the shuffle reads past it. *)
Theorem generateSecret_distinct (secret_length digit_count k : nat) (w : world) :
  secret_length ≤ digit_count →
  length (randomDigitPool w) = digit_count →
  NoDup (randomDigitPool w) →
  length (secret (gameData w)) = secret_length →
  (digit_count ≠ 1 → is_Ok (games secret_length digit_count k w))
  ∧ ∀ secrets w', games secret_length digit_count k w = Ok (secrets, w') →
      length secrets = k
      ∧ Forall (λ s, NoDup s ∧ length s = secret_length) secrets
      ∧ randomDigitPool w' ≡ₚ randomDigitPool w.
Proof.
  intros Hle. revert w.
  induction k as [|k IH]; intros w Hpool Hnd Hsec; cbn [games].
  - split; [by eexists|]. intros secrets w' [= <- <-]. by split_and!.
  - split.
    + intros Hdc. rewrite generateSecret_at_false by done.
      destruct (shuffleSort_Ok (randomDigitPool w) digit_count (rng w))
        as (pool & e & Hsh); [lia|lia|].
      rewrite Hsh; simpl.
      apply shuffleSort_Permutation in Hsh.
      match goal with |- is_Ok (bind (games _ _ _ ?w1) _) =>
        destruct (IH w1) as [[[ss w2] ->] _]
      end; simpl; [by rewrite Hsh|by rewrite Hsh| |done|by eexists].
      rewrite length_take_le; [done|]. apply Permutation_length in Hsh. lia.
    + intros secrets w'.
      intros (w1 & Hgen & H)%bind_Ok_inv.
      apply bind_Ok_inv in H as ([ss w2] & Hrest & [= <- <-]).
      destruct (generateSecret_at_false_inv _ _ _ _ Hle Hpool Hsec Hgen)
        as (Hperm & Htake & Hlen).
      destruct (IH w1) as [_ Hnext];
        [by rewrite Hperm|by rewrite Hperm|done|].
      destruct (Hnext ss w2 Hrest) as (Hk & Hall & Hperm2).
      split_and!; [by rewrite <- Hk| |by rewrite Hperm2].
      constructor; [|done]. split; [|done].
      rewrite Htake. eapply sublist_NoDup; [|apply sublist_take].
      by rewrite Hperm.
Qed.

Lemma generateSecret_distinct_witness :
  (DIGIT_COUNT ≠ 1 →
   is_Ok (games SECRET_LENGTH DIGIT_COUNT 3 (boot entropy_example)))
  ∧ ∀ secrets w',
      games SECRET_LENGTH DIGIT_COUNT 3 (boot entropy_example) = Ok (secrets, w') →
      length secrets = 3
      ∧ Forall (λ s, NoDup s ∧ length s = SECRET_LENGTH) secrets
      ∧ randomDigitPool w' ≡ₚ randomDigitPool (boot entropy_example).
Proof.
  apply (generateSecret_distinct SECRET_LENGTH DIGIT_COUNT 3 (boot entropy_example)).
  - vm_compute. lia.
  - reflexivity.
  - refine (bool_decide_unpack (NoDup DIGIT_POOL_INIT) _). vm_compute. exact I.
  - reflexivity.
Defined.

(** ** The session state machine *)

Lemma is_digit_not_control (key : ascii) :
  is_digit key = true →
  key ≠ NO_KEY ∧ key ≠ BUTTON_NEWROUND ∧ key ≠ BUTTON_NEWGAME.
Proof. intros H. split_and!; intros ->; discriminate H. Qed.

Lemma isSecretSolved_from_spec (hnt : list ascii) (count : nat) :
  ∀ i, i + count ≤ length hnt →
    isSecretSolved_from count i hnt
    = Ok (bool_decide (Forall (λ c, c = HINT_CORRECT) (take count (drop i hnt)))).
Proof.
  induction count as [|count IH]; intros i Hi; cbn [isSecretSolved_from].
  - rewrite take_0. by rewrite bool_decide_true by constructor.
  - destruct (lookup_lt_is_Some_2 hnt i) as [h Hh]; [lia|].
    rewrite (rd_Ok _ _ _ Hh); cbn [bind].
    rewrite (drop_S _ _ _ Hh), firstn_cons.
    destruct (decide (h ≠ HINT_CORRECT)) as [Hne|Heq].
    + rewrite bool_decide_false; [done|]. by intros [? _]%Forall_cons.
    + apply dec_stable in Heq. rewrite IH by lia. f_equal.
      apply bool_decide_ext. rewrite Forall_cons. tauto.
Qed.

Lemma isSecretSolved_spec (hnt : list ascii) (n : nat) :
  n ≤ length hnt →
  ∃ b, isSecretSolved hnt n = Ok b ∧ (b = true ↔ all_correct hnt n).
Proof.
  intros Hn. unfold all_correct. eexists. split.
  { unfold isSecretSolved. by rewrite isSecretSolved_from_spec by lia. }
  rewrite drop_0, bool_decide_eq_true, Forall_lookup. split.
  - intros H i Hi.
    destruct (lookup_lt_is_Some_2 hnt i) as [c Hc]; [lia|].
    rewrite Hc. f_equal. apply (H i). by rewrite lookup_take_lt.
  - intros H i c [Hc Hi]%lookup_take_Some.
    specialize (H i Hi). congruence.
Qed.

(** *** Keys that trigger no transition *)

Lemma loop_digit_not_input (w : world) (key : ascii) :
  is_digit key = true → state (gameData w) ≠ GS_INPUT → loop key w = Ok w.
Proof.
  intros Hd Hst. destruct (is_digit_not_control key Hd) as (H0 & H1 & H2).
  unfold loop. rewrite decide_False by done.
  rewrite bool_decide_false by done. simpl.
  by rewrite !decide_False by done.
Qed.

Lemma loop_other_key (w : world) (key : ascii) :
  is_digit key = false → key ≠ BUTTON_NEWROUND → key ≠ BUTTON_NEWGAME →
  loop key w = Ok w.
Proof.
  intros Hd H1 H2. unfold loop. case_decide; [done|].
  rewrite Hd, andb_false_r. by rewrite !decide_False by done.
Qed.

(** *** New round and new game *)

Lemma loop_newround (w : world) :
  loop BUTTON_NEWROUND w
  = match state (gameData w) with
    | GS_INPUT | GS_ROUNDOVER => Ok (resetInput w)
    | GS_GAMEOVER => newGame w
    end.
Proof.
  unfold loop. rewrite decide_False by done.
  replace (is_digit BUTTON_NEWROUND) with false by done.
  by rewrite andb_false_r.
Qed.

Lemma loop_newgame (w : world) : loop BUTTON_NEWGAME w = newGame w.
Proof.
  unfold loop. rewrite decide_False by done.
  replace (is_digit BUTTON_NEWGAME) with false by done.
  by rewrite andb_false_r.
Qed.

Lemma generateSecret_false (w : world) :
  wf w →
  ∃ pool e,
    shuffleSort (randomDigitPool w) DIGIT_COUNT (rng w) = Ok (pool, e)
    ∧ pool ≡ₚ randomDigitPool w
    ∧ generateSecret false w
      = Ok {| gameData := set_secret (take SECRET_LENGTH pool) (gameData w);
              randomDigitPool := pool; rng := e;
              ledWin := ledWin w; ledLose := ledLose w;
              lcdMessages := lcdMessages w |}.
Proof.
  intros (Hsec & _ & _ & Hpool).
  destruct (shuffleSort_Ok (randomDigitPool w) DIGIT_COUNT (rng w))
    as (pool & e & Hsh); [lia|by intros [=]|].
  exists pool, e. split_and!; [done|by eapply shuffleSort_Permutation|].
  unfold generateSecret.
  rewrite generateSecret_at_false; [|by vm_compute; lia|done|done].
  by rewrite Hsh.
Qed.

Lemma incr_small (x : N) : (x < 65535)%N → incr x = (x + 1)%N.
Proof. intros Hx. unfold incr, UINT_MODULUS. apply N.mod_small. lia. Qed.

Lemma newGame_spec (w : world) :
  wf w →
  ∃ pool e,
    shuffleSort (randomDigitPool w) DIGIT_COUNT (rng w) = Ok (pool, e)
    ∧ pool ≡ₚ randomDigitPool w
    ∧ generateSecret false w
      = Ok {| gameData := set_secret (take SECRET_LENGTH pool) (gameData w);
              randomDigitPool := pool; rng := e;
              ledWin := ledWin w; ledLose := ledLose w;
              lcdMessages := lcdMessages w |}
    ∧ newGame w
      = Ok {| gameData := {| state := GS_INPUT;
                             secret := take SECRET_LENGTH pool;
                             input := input (gameData w);
                             hints := hints (gameData w);
                             inputCount := 0; tries := 0 |};
              randomDigitPool := pool; rng := e;
              ledWin := false; ledLose := false;
              lcdMessages := lcdMessages w |}.
Proof.
  intros Hwf.
  destruct (generateSecret_false w Hwf) as (pool & e & Hsh & Hperm & Hgen).
  exists pool, e. split_and!; [done|done|done|].
  unfold newGame. by rewrite Hgen.
Qed.

(** A digit that does not complete the guess is appended. *)
Lemma loop_append (w : world) (key : ascii) :
  wf w → state (gameData w) = GS_INPUT → is_digit key = true →
  (inputCount (gameData w) < 3)%N →
  loop key w
  = Ok (set_gameData
          (set_inputCount (inputCount (gameData w) + 1)%N
             (set_input (<[N.to_nat (inputCount (gameData w)):=key]>
                           (input (gameData w))) (gameData w))) w).
Proof.
  intros (_ & Hinp & _) Hst Hd Hcnt.
  destruct (is_digit_not_control key Hd) as (H0 & _).
  unfold loop. rewrite decide_False by done.
  rewrite bool_decide_true by done. rewrite Hd. cbn [andb].
  rewrite wr_Ok by (rewrite Hinp; unfold SECRET_LENGTH; lia). simpl_world.
  rewrite incr_small by lia.
  replace (N.of_nat SECRET_LENGTH <=? inputCount (gameData w) + 1)%N with false;
    [done|].
  symmetry. apply N.leb_gt. unfold SECRET_LENGTH. lia.
Qed.

(** The digit that completes the guess triggers the evaluation. *)
Lemma loop_evaluate (w : world) (key : ascii) :
  wf w → state (gameData w) = GS_INPUT → is_digit key = true →
  inputCount (gameData w) = 3%N →
  ∃ (h : list ascii) (solved : bool),
    length h = SECRET_LENGTH
    ∧ (∀ i a, <[3:=key]> (input (gameData w)) !! i = Some a →
              h !! i = Some (hint_for (secret (gameData w)) i a))
    ∧ isSecretSolved h SECRET_LENGTH = Ok solved
    ∧ (solved = true ↔ all_correct h SECRET_LENGTH)
    ∧ loop key w
      = Ok (if solved then
              evaluated w key h GS_GAMEOVER MESSAGE_WIN true (ledLose w)
            else if (TRIES_MAX <=? incr (tries (gameData w)))%N then
              evaluated w key h GS_GAMEOVER MESSAGE_LOSE (ledWin w) true
            else
              evaluated w key h GS_ROUNDOVER MESSAGE_NEXTTRY (ledWin w) (ledLose w)).
Proof.
  intros (Hsec & Hinp & Hhnt & _) Hst Hd Hcnt.
  destruct (is_digit_not_control key Hd) as (H0 & _).
  destruct (checkInput_n_hints (<[3:=key]> (input (gameData w)))
              (secret (gameData w)) (hints (gameData w)) SECRET_LENGTH)
    as (h & Hcheck & Hlen & Hh); [by rewrite length_insert|done|done|].
  destruct (isSecretSolved_spec h SECRET_LENGTH) as (solved & Hsolved & Hiff);
    [lia|].
  exists h, solved. split_and!; [done|done|done|done|].
  unfold loop. rewrite decide_False by done.
  rewrite bool_decide_true by done. rewrite Hd. cbn [andb].
  rewrite Hcnt. change (N.to_nat 3) with 3.
  rewrite wr_Ok by (rewrite Hinp; unfold SECRET_LENGTH; lia). simpl_world.
  change (N.of_nat SECRET_LENGTH <=? incr 3)%N with true. cbv iota.
  unfold checkInput, isSolved. simpl_world.
  rewrite Hcheck. simpl_world. rewrite Hsolved. simpl_world.
  destruct solved; [reflexivity|].
  destruct (TRIES_MAX <=? incr (tries (gameData w)))%N; reflexivity.
Qed.

(** *** The session invariant *)

Lemma DIGIT_POOL_INIT_NoDup : NoDup DIGIT_POOL_INIT.
Proof. refine (bool_decide_unpack _ _). vm_compute. exact I. Qed.

Lemma wf_boot (e : entropy) : wf (boot e).
Proof. by split_and!. Qed.

Lemma newGame_inv (w : world) :
  wf w → NoDup (randomDigitPool w) →
  ∃ w', newGame w = Ok w' ∧ inv w'.
Proof.
  intros Hwf Hnd. pose proof Hwf as (Hsec & Hinp & Hhnt & Hpool).
  destruct (newGame_spec w Hwf) as (pool & e & _ & Hperm & _ & ->).
  eexists; split; [done|].
  assert (Hlen : length pool = DIGIT_COUNT) by (by rewrite Hperm).
  unfold inv, wf, TRIES_MAX. simpl_world. split_and!; try done; try lia.
  - rewrite length_take_le; [done|]. rewrite Hlen. vm_compute. lia.
  - by rewrite Hperm.
  - eapply sublist_NoDup; [|apply sublist_take]. by rewrite Hperm.
Qed.

Lemma loop_step (w : world) (key : ascii) :
  inv w → ∃ w', loop key w = Ok w' ∧ inv w' ∧ tries_step w w'.
Proof.
  intros Hinv.
  pose proof Hinv as (Hwf & Hcnt & Hcnt' & Htr & Htr' & Hndp & Hnds).
  pose proof Hwf as (Hsec & Hinp & Hhnt & Hpool).
  destruct (is_digit key) eqn:Hd.
  - destruct (decide (state (gameData w) = GS_INPUT)) as [Hst|Hst].
    + specialize (Hcnt' Hst). unfold SECRET_LENGTH in Hcnt'.
      assert (Htr'' : (tries (gameData w) < TRIES_MAX)%N)
        by (apply Htr'; congruence).
      unfold TRIES_MAX in Htr''.
      destruct (decide (inputCount (gameData w) = 3%N)) as [H3|H3].
      * destruct (loop_evaluate w key Hwf Hst Hd H3)
          as (h & solved & Hlen & _ & _ & Hiff & ->).
        eexists; split; [done|].
        unfold evaluated. rewrite incr_small by lia.
        destruct solved;
          [|destruct (TRIES_MAX <=? tries (gameData w) + 1)%N eqn:Hmax;
            [|apply N.leb_gt in Hmax]];
          unfold tries_step, all_correct, inv, wf, TRIES_MAX, SECRET_LENGTH in *;
          simpl_world;
          (split; [split_and!; try done; try lia; by rewrite length_insert|]);
          right; right; (split_and!; try done; try lia).
        intros Hall. apply Hiff in Hall. discriminate Hall.
      * rewrite loop_append by (done || lia).
        eexists; split; [done|].
        unfold tries_step, inv, wf, TRIES_MAX, SECRET_LENGTH in *; simpl_world.
        split; [|by left].
        split_and!; try done; try lia. by rewrite length_insert.
    + rewrite loop_digit_not_input by done.
      exists w. split_and!; [done|done|by left].
  - destruct (decide (key = BUTTON_NEWROUND)) as [->|Hnr].
    + rewrite loop_newround.
      assert (Hreset : state (gameData w) ≠ GS_GAMEOVER →
                       inv (resetInput w) ∧ tries_step w (resetInput w)).
      { intros Hst. specialize (Htr' Hst).
        unfold tries_step, inv, wf, TRIES_MAX, SECRET_LENGTH in *; simpl_world.
        split; [|by left]. split_and!; try done; lia. }
      destruct (state (gameData w)) eqn:Hst.
      * exists (resetInput w). split; [done|]. by apply Hreset.
      * exists (resetInput w). split; [done|]. by apply Hreset.
      * destruct (newGame_inv w Hwf Hndp) as (w' & Hng & Hinv').
        exists w'. split_and!; [done|done|].
        destruct (newGame_spec w Hwf) as (? & ? & _ & _ & _ & Hng').
        rewrite Hng' in Hng. injection Hng as <-. right; by left.
    + destruct (decide (key = BUTTON_NEWGAME)) as [->|Hng].
      * rewrite loop_newgame.
        destruct (newGame_inv w Hwf Hndp) as (w' & Hng & Hinv').
        exists w'. split_and!; [done|done|].
        destruct (newGame_spec w Hwf) as (? & ? & _ & _ & _ & Hng').
        rewrite Hng' in Hng. injection Hng as <-. right; by left.
      * rewrite loop_other_key by done.
        exists w. split_and!; [done|done|by left].
Qed.

Lemma loop_inv (w : world) (key : ascii) :
  inv w → ∃ w', loop key w = Ok w' ∧ inv w'.
Proof.
  intros Hinv. destruct (loop_step w key Hinv) as (w' & ? & ? & _). eauto.
Qed.

Lemma run_inv (keys : list ascii) :
  ∀ w, inv w → ∃ w', run keys w = Ok w' ∧ inv w'.
Proof.
  induction keys as [|key keys IH]; intros w Hinv; simpl; [eauto|].
  destruct (loop_inv w key Hinv) as (w1 & -> & Hinv1). simpl. eauto.
Qed.

(** The sketch never faults: [setup()] and every later [loop()] return. *)
Lemma setup_run_Ok (e : entropy) (keys : list ascii) :
  ∃ w, (let* w0 := setup e in run keys w0) = Ok w ∧ inv w.
Proof.
  destruct (newGame_inv (boot e) (wf_boot e) DIGIT_POOL_INIT_NoDup)
    as (w0 & Hsetup & Hinv0).
  unfold setup. rewrite Hsetup. simpl. by apply run_inv.
Qed.

Lemma reachable_inv (w : world) : reachable w → inv w.
Proof.
  intros (e & keys & Hrun).
  destruct (setup_run_Ok e keys) as (w' & Hrun' & Hinv). congruence.
Qed.

Lemma reachable_step (w w' : world) (key : ascii) :
  reachable w → loop key w = Ok w' → reachable w'.
Proof.
  intros (e & keys & Hrun) Hstep. exists e, (keys ++ [key]).
  destruct (setup e) as [w0|f]; simpl in *; [|done].
  clear e. revert w0 Hrun.
  induction keys as [|k keys IH]; intros w0 Hrun; simpl in *.
  - injection Hrun as ->. by rewrite Hstep.
  - destruct (loop k w0) as [w1|f]; simpl in *; [eauto|done].
Qed.

(** *** Outcomes *)

Lemma world_three_digits_reachable : reachable world_three_digits.
Proof. exists entropy_example, ["5"; "5"; "0"]%char. reflexivity. Qed.

Lemma world_won_reachable : reachable world_won.
Proof. exists entropy_example, ["5"; "0"; "7"; "6"]%char. reflexivity. Qed.

Lemma world_second_round_reachable : reachable world_second_round.
Proof.
  exists entropy_example, ["5"; "5"; "0"; "0"; "1"; "*"; "5"; "7"]%char.
  reflexivity.
Qed.

Lemma announced_evaluated (w : world) (key : ascii) (h : list ascii)
  (st : gamestate) (msg : string) (win lose : bool) :
  announced (evaluated w key h st msg win lose)
  = announced {| gameData := gameData w; randomDigitPool := [];
                 rng := rng w; ledWin := win; ledLose := lose;
                 lcdMessages := [msg] |}.
Proof. reflexivity. Qed.

(** C3: the digit completing a guess increments the try count and
    evaluates.  The outcome is WON (state [GS_GAMEOVER]) iff every hint is
    [HINT_CORRECT], which is what [isSecretSolved] tests; otherwise LOST
    ([GS_GAMEOVER]) iff the incremented count is at least [TRIES_MAX = 12];
    otherwise CONTINUE ([GS_ROUNDOVER]).  A guess solved on the 12th try
    wins, the 12th unsolved guess loses, the 11th unsolved guess
    continues. *)
Theorem evaluation_outcome (w : world) (key : ascii) :
  wf w →
  state (gameData w) = GS_INPUT →
  is_digit key = true →
  inputCount (gameData w) = 3%N →
  (∀ (hnt : list ascii) (n : nat), n ≤ length hnt →
     ∃ b, isSecretSolved hnt n = Ok b ∧ (b = true ↔ all_correct hnt n))
  ∧ TRIES_MAX = 12%N
  ∧ ∃ w', loop key w = Ok w'
      ∧ tries (gameData w') = incr (tries (gameData w))
      ∧ (announced w' = Some WON ↔
           all_correct (hints (gameData w')) SECRET_LENGTH)
      ∧ (announced w' = Some LOST ↔
           ¬ all_correct (hints (gameData w')) SECRET_LENGTH
           ∧ (TRIES_MAX ≤ tries (gameData w'))%N)
      ∧ (announced w' = Some CONTINUE ↔
           ¬ all_correct (hints (gameData w')) SECRET_LENGTH
           ∧ (tries (gameData w') < TRIES_MAX)%N)
      ∧ (announced w' = Some WON →
           state (gameData w') = GS_GAMEOVER ∧ ledWin w' = true)
      ∧ (announced w' = Some LOST →
           state (gameData w') = GS_GAMEOVER ∧ ledLose w' = true)
      ∧ (announced w' = Some CONTINUE → state (gameData w') = GS_ROUNDOVER)
      ∧ (tries (gameData w) = 11%N →
           all_correct (hints (gameData w')) SECRET_LENGTH →
           announced w' = Some WON)
      ∧ (tries (gameData w) = 11%N →
           ¬ all_correct (hints (gameData w')) SECRET_LENGTH →
           announced w' = Some LOST)
      ∧ (tries (gameData w) = 10%N →
           ¬ all_correct (hints (gameData w')) SECRET_LENGTH →
           announced w' = Some CONTINUE).
Proof.
  intros Hwf Hst Hd H3.
  split; [exact isSecretSolved_spec|]. split; [reflexivity|].
  destruct (loop_evaluate w key Hwf Hst Hd H3)
    as (h & solved & Hlen & _ & _ & Hiff & ->).
  eexists; split; [done|].
  destruct solved.
  - assert (Hall : all_correct h SECRET_LENGTH) by (by apply Hiff).
    rewrite !announced_evaluated. unfold evaluated. simpl_world.
    split_and!; try done; try (split; [done|]); try (by intros [? _]).
  - assert (Hnall : ¬ all_correct h SECRET_LENGTH).
    { intros Hall. apply Hiff in Hall. discriminate Hall. }
    destruct (TRIES_MAX <=? incr (tries (gameData w)))%N eqn:Hmax.
    + apply N.leb_le in Hmax.
      rewrite !announced_evaluated. unfold evaluated. simpl_world.
      split_and!; try done; try (split; [done|]); try (by intros [? _]).
      * intros [_ ?]. lia.
      * intros Htr _. rewrite Htr in Hmax. vm_compute in Hmax. done.
    + apply N.leb_gt in Hmax.
      rewrite !announced_evaluated. unfold evaluated. simpl_world.
      split_and!; try done; try (split; [done|]); try (by intros [? _]).
      * intros [_ ?]. lia.
      * intros Htr _. rewrite Htr in Hmax. vm_compute in Hmax. done.
Qed.

Lemma evaluation_outcome_witness :
  ∃ w', loop "0" world_three_digits = Ok w'
        ∧ tries (gameData w') = incr (tries (gameData world_three_digits))
        ∧ (announced w' = Some CONTINUE → state (gameData w') = GS_ROUNDOVER).
Proof.
  destruct (evaluation_outcome world_three_digits "0")
    as (_ & _ & w' & Hrun & Htr & _ & _ & _ & _ & _ & Hcont & _).
  - by split_and!.
  - reflexivity.
  - reflexivity.
  - reflexivity.
  - exists w'. by split_and!.
Defined.

(** C5: in every reachable state [0 ≤ tries ≤ TRIES_MAX], and [tries]
    equals [TRIES_MAX] only when the game is over.  Every call of [loop()]
    returns and leaves [tries] alone, resets it to 0, or increments it from
    below [TRIES_MAX] in an evaluation, after which the state is
    [GS_GAMEOVER] as soon as the guess is solved or [tries] has reached
    [TRIES_MAX]. *)
Theorem tries_bounded (w : world) :
  reachable w →
  (0 ≤ tries (gameData w) ≤ TRIES_MAX)%N
  ∧ (tries (gameData w) = TRIES_MAX → state (gameData w) = GS_GAMEOVER)
  ∧ ∀ key, ∃ w', loop key w = Ok w' ∧ tries_step w w'
                 ∧ (tries (gameData w') ≤ TRIES_MAX)%N.
Proof.
  intros Hreach. pose proof (reachable_inv w Hreach) as Hinv.
  pose proof Hinv as (_ & _ & _ & Htr & Htr' & _).
  split_and!; [lia|done| |].
  - intros Hmax. destruct (state (gameData w)) eqn:Hst; [| |done].
    all: assert (tries (gameData w) < TRIES_MAX)%N by (by apply Htr'); lia.
  - intros key. destruct (loop_step w key Hinv) as (w' & Hrun & Hinv' & Hstep).
    exists w'. split_and!; [done|done|]. by destruct Hinv' as (_ & _ & _ & ? & _).
Qed.

Lemma tries_bounded_witness :
  (0 ≤ tries (gameData world_three_digits) ≤ TRIES_MAX)%N
  ∧ (tries (gameData world_three_digits) = TRIES_MAX →
     state (gameData world_three_digits) = GS_GAMEOVER)
  ∧ ∀ key, ∃ w', loop key world_three_digits = Ok w'
                 ∧ tries_step world_three_digits w'
                 ∧ (tries (gameData w') ≤ TRIES_MAX)%N.
Proof.
  apply (tries_bounded world_three_digits).
  exists entropy_example, ["5"; "5"; "0"]%char. reflexivity.
Defined.

(** C6: a key that triggers no transition leaves the whole session (indeed
    the whole world) unchanged: a digit while the state is [GS_ROUNDOVER] or
    [GS_GAMEOVER], in particular a digit in any reachable state whose guess
    buffer is full, and any key that is neither a digit nor ['*'] nor
    ['#'], in every state. *)
Theorem ignored_key (w : world) (key : ascii) :
  (is_digit key = true
   ∧ (state (gameData w) = GS_ROUNDOVER ∨ state (gameData w) = GS_GAMEOVER))
  ∨ (is_digit key = true
     ∧ reachable w ∧ inputCount (gameData w) = N.of_nat SECRET_LENGTH)
  ∨ (is_digit key = false ∧ key ≠ BUTTON_NEWROUND ∧ key ≠ BUTTON_NEWGAME) →
  loop key w = Ok w.
Proof.
  intros [[Hd Hst]|[(Hd & Hreach & Hfull)|(Hd & Hnr & Hng)]].
  - apply loop_digit_not_input; [done|]. destruct Hst; congruence.
  - apply loop_digit_not_input; [done|].
    destruct (reachable_inv w Hreach) as (_ & _ & Hcnt & _).
    intros Hst. specialize (Hcnt Hst). lia.
  - by apply loop_other_key.
Qed.

Lemma ignored_key_witness :
  loop "7" world_won = Ok world_won ∧ loop "A" world_three_digits = Ok world_three_digits.
Proof.
  split.
  - apply (ignored_key world_won "7"). left. split; [reflexivity|].
    right. reflexivity.
  - apply (ignored_key world_three_digits "A"). right. right.
    split_and!; [reflexivity|discriminate|discriminate].
Defined.

(** C7: ['#'] in any state, and ['*'] in [GS_GAMEOVER], start a new game:
    the generator is called once more, its secret is the one in effect,
    [tries = 0], the guess is empty and the state is [GS_INPUT]. *)
Theorem new_game_resets (w : world) (key : ascii) :
  wf w →
  key = BUTTON_NEWGAME
  ∨ (key = BUTTON_NEWROUND ∧ state (gameData w) = GS_GAMEOVER) →
  ∃ w1 w',
    generateSecret false w = Ok w1
    ∧ loop key w = Ok w'
    ∧ secret (gameData w') = secret (gameData w1)
    ∧ randomDigitPool w' = randomDigitPool w1
    ∧ rng w' = rng w1
    ∧ secret (gameData w') = take SECRET_LENGTH (randomDigitPool w')
    ∧ randomDigitPool w' ≡ₚ randomDigitPool w
    ∧ tries (gameData w') = 0%N
    ∧ inputCount (gameData w') = 0%N
    ∧ state (gameData w') = GS_INPUT.
Proof.
  intros Hwf Hkey.
  destruct (newGame_spec w Hwf) as (pool & e & _ & Hperm & Hgen & Hng).
  assert (Hloop : loop key w = newGame w).
  { destruct Hkey as [->|[-> Hst]]; [apply loop_newgame|].
    rewrite loop_newround. by rewrite Hst. }
  eexists _, _. split; [exact Hgen|]. split; [by rewrite Hloop|].
  simpl_world. by split_and!.
Qed.

Lemma new_game_resets_witness :
  ∃ w', loop BUTTON_NEWROUND world_won = Ok w'
        ∧ tries (gameData w') = 0%N
        ∧ inputCount (gameData w') = 0%N
        ∧ state (gameData w') = GS_INPUT.
Proof.
  destruct (new_game_resets world_won BUTTON_NEWROUND)
    as (w1 & w' & _ & Hrun & _ & _ & _ & _ & _ & Htr & Hcnt & Hst).
  - by split_and!.
  - right. split; reflexivity.
  - exists w'. by split_and!.
Defined.

(** C8: ['*'] in [GS_INPUT] or [GS_ROUNDOVER] sets the state to [GS_INPUT]
    and empties the guess; the secret and the try count (and the pool and
    the entropy source) stay as they were. *)
Theorem new_round_keeps_game (w : world) :
  state (gameData w) = GS_INPUT ∨ state (gameData w) = GS_ROUNDOVER →
  ∃ w', loop BUTTON_NEWROUND w = Ok w'
        ∧ state (gameData w') = GS_INPUT
        ∧ inputCount (gameData w') = 0%N
        ∧ secret (gameData w') = secret (gameData w)
        ∧ tries (gameData w') = tries (gameData w)
        ∧ randomDigitPool w' = randomDigitPool w
        ∧ rng w' = rng w.
Proof.
  intros Hst. exists (resetInput w). split; [|by split_and!].
  rewrite loop_newround. by destruct Hst as [->| ->].
Qed.

Lemma new_round_keeps_game_witness :
  ∃ w', loop BUTTON_NEWROUND world_second_round = Ok w'
        ∧ state (gameData w') = GS_INPUT
        ∧ inputCount (gameData w') = 0%N
        ∧ secret (gameData w') = secret (gameData world_second_round)
        ∧ tries (gameData w') = tries (gameData world_second_round)
        ∧ randomDigitPool w' = randomDigitPool world_second_round
        ∧ rng w' = rng world_second_round.
Proof.
  apply (new_round_keeps_game world_second_round). left. reflexivity.
Defined.

(** C9: in every reachable state [inputCount ≤ SECRET_LENGTH], and
    [inputCount < SECRET_LENGTH] while the state is [GS_INPUT]; so the
    write [gameData.input[gameData.inputCount] = key] done for a digit in
    [GS_INPUT] stays inside the buffer, and no call of [loop()] faults. *)
Theorem input_index_in_bounds (w : world) :
  reachable w →
  (inputCount (gameData w) ≤ N.of_nat SECRET_LENGTH)%N
  ∧ (state (gameData w) = GS_INPUT →
     (inputCount (gameData w) < N.of_nat SECRET_LENGTH)%N)
  ∧ length (input (gameData w)) = SECRET_LENGTH
  ∧ (∀ key, state (gameData w) = GS_INPUT → is_digit key = true →
       wr (input (gameData w)) (N.to_nat (inputCount (gameData w))) key
       = Ok (<[N.to_nat (inputCount (gameData w)):=key]> (input (gameData w))))
  ∧ (∀ key, ∃ w', loop key w = Ok w' ∧ reachable w').
Proof.
  intros Hreach.
  pose proof (reachable_inv w Hreach) as Hinv.
  pose proof Hinv as ((_ & Hinp & _) & Hcnt & Hcnt' & _).
  split_and!; [done|done|done| |].
  - intros key Hst _. apply wr_Ok. specialize (Hcnt' Hst). lia.
  - intros key. destruct (loop_inv w key Hinv) as (w' & Hrun & _).
    exists w'. split; [done|]. by eapply reachable_step.
Qed.

Lemma input_index_in_bounds_witness :
  (inputCount (gameData world_three_digits) ≤ N.of_nat SECRET_LENGTH)%N
  ∧ (state (gameData world_three_digits) = GS_INPUT →
     (inputCount (gameData world_three_digits) < N.of_nat SECRET_LENGTH)%N)
  ∧ length (input (gameData world_three_digits)) = SECRET_LENGTH
  ∧ (∀ key, state (gameData world_three_digits) = GS_INPUT →
       is_digit key = true →
       wr (input (gameData world_three_digits))
          (N.to_nat (inputCount (gameData world_three_digits))) key
       = Ok (<[N.to_nat (inputCount (gameData world_three_digits)):=key]>
               (input (gameData world_three_digits))))
  ∧ (∀ key, ∃ w', loop key world_three_digits = Ok w' ∧ reachable w').
Proof.
  apply (input_index_in_bounds world_three_digits).
  exists entropy_example, ["5"; "5"; "0"]%char. reflexivity.
Defined.

(** Every secret in effect in a reachable state has pairwise distinct
    digits. *)
Lemma reachable_secret_distinct (w : world) :
  reachable w →
  NoDup (secret (gameData w)) ∧ length (secret (gameData w)) = SECRET_LENGTH.
Proof.
  intros Hreach. by destruct (reachable_inv w Hreach) as ((? & _) & _ & _ & _ & _ & _ & ?).
Qed.

(** * Further properties of the sketch and of its unit test *)

(** ** The shuffle: frame, draws and bias *)

Lemma draw_z_entropy (i : nat) (e : entropy) :
  raw (draw_z i e).2 = raw e
  ∧ drawn (draw_z i e).2 = drawn e + (if decide (0 < i) then 1 else 0).
Proof.
  unfold draw_z, randomNumber. case_decide.
  - destruct i as [|i]; [lia|]. simpl. split; [done|lia].
  - simpl. split; [done|lia].
Qed.

Lemma shuffle_body_frame (i : nat) (arr : list ascii) (e : entropy) :
  1 ≤ i < length arr →
  ∃ arr' e', shuffle_body i (arr, e) = Ok (arr', e')
             ∧ length arr' = length arr
             ∧ arr' !! 0 = arr !! 0
             ∧ (∀ k, i < k → arr' !! k = arr !! k)
             ∧ raw e' = raw e
             ∧ drawn e' = S (drawn e).
Proof.
  intros Hi. unfold shuffle_body.
  pose proof (draw_z_pos i e) as Hz1. pose proof (draw_z_le i e) as Hz2.
  pose proof (draw_z_entropy i e) as [Hraw Hdrawn].
  rewrite decide_True in Hdrawn by lia.
  destruct (draw_z i e) as [z e']. simpl in *.
  destruct (swap_Ok arr i z) as (x & y & Hx & Hy & Hswap); [lia|lia|].
  rewrite Hswap; simpl. eexists _, _. split_and!; [done|..].
  - by rewrite !length_insert.
  - by rewrite !list_lookup_insert_ne by lia.
  - intros k Hk. by rewrite !list_lookup_insert_ne by lia.
  - done.
  - lia.
Qed.

Lemma shuffle_down_to_1_frame (n : nat) :
  ∀ (arr : list ascii) (e : entropy),
    n ≤ length arr →
    ∃ arr1 e1, for_down n 1 shuffle_body (arr, e) = Ok (arr1, e1)
               ∧ length arr1 = length arr
               ∧ arr1 !! 0 = arr !! 0
               ∧ (∀ k, n ≤ k → arr1 !! k = arr !! k)
               ∧ raw e1 = raw e
               ∧ drawn e1 = drawn e + (n - 1).
Proof.
  induction n as [|i IH]; intros arr e Hn.
  - exists arr, e. simpl. split_and!; try done; lia.
  - cbn [for_down]. case_decide.
    + destruct (shuffle_body_frame i arr e) as (arr' & e' & -> & Hlen & H0 & Hfr & Hraw & Hdr);
        [lia|]. cbn [bind].
      destruct (IH arr' e') as (arr1 & e1 & Hrun & Hlen1 & H01 & Hfr1 & Hraw1 & Hdr1);
        [lia|].
      exists arr1, e1. split_and!; [done|congruence|congruence| |congruence|lia].
      intros k Hk. rewrite Hfr1 by lia. apply Hfr. lia.
    + exists arr, e. split_and!; try done; lia.
Qed.

(** X1: on a range of at least two elements inside the array the shuffle
    returns, permutes the first [n] elements among themselves, leaves the
    rest of the array alone and makes exactly [n - 1] draws. *)
Theorem shuffleSort_permutes_prefix (arr : list ascii) (n : nat) (e : entropy) :
  2 ≤ n → n ≤ length arr →
  ∃ arr' e',
    shuffleSort arr n e = Ok (arr', e')
    ∧ take n arr' ≡ₚ take n arr
    ∧ drop n arr' = drop n arr
    ∧ raw e' = raw e
    ∧ drawn e' = drawn e + (n - 1).
Proof.
  intros Hn2 Hn.
  destruct (shuffle_down_to_1_frame n arr e Hn)
    as (arr1 & e1 & Hrun & Hlen1 & _ & Hfr & Hraw & Hdr).
  destruct (swap_Ok arr1 0 1) as (x & y & Hx & Hy & Hswap); [lia|lia|].
  exists (<[1:=x]> (<[0:=y]> arr1)), e1.
  assert (Hres : shuffleSort arr n e = Ok (<[1:=x]> (<[0:=y]> arr1), e1)).
  { unfold shuffleSort. rewrite for_down_split by lia.
    rewrite Hrun. cbn [bind]. rewrite shuffle_body_0. by rewrite Hswap. }
  assert (Hdrop : drop n (<[1:=x]> (<[0:=y]> arr1)) = drop n arr).
  { apply list_eq. intros k. rewrite !lookup_drop.
    rewrite !list_lookup_insert_ne by lia. apply Hfr. lia. }
  split_and!; [done| |done|done|done].
  apply shuffleSort_Permutation in Hres.
  pose proof (take_drop n (<[1:=x]> (<[0:=y]> arr1))) as E1.
  rewrite Hdrop in E1.
  apply (Permutation_app_inv_r (drop n arr)).
  by rewrite E1, take_drop.
Qed.

Lemma shuffleSort_permutes_prefix_witness :
  ∃ arr' e',
    shuffleSort DIGIT_POOL_INIT 4 entropy_example = Ok (arr', e')
    ∧ take 4 arr' ≡ₚ take 4 DIGIT_POOL_INIT
    ∧ drop 4 arr' = drop 4 DIGIT_POOL_INIT
    ∧ raw e' = raw entropy_example
    ∧ drawn e' = drawn entropy_example + (4 - 1).
Proof.
  apply (shuffleSort_permutes_prefix DIGIT_POOL_INIT 4 entropy_example);
    vm_compute; lia.
Defined.

Lemma shuffleSort_index_1 (arr : list ascii) (n : nat) (e : entropy) :
  1 ≤ n → n ≤ length arr → 2 ≤ length arr →
  ∃ arr' e',
    shuffleSort arr n e = Ok (arr', e')
    ∧ arr' !! 1 = arr !! 0
    ∧ (NoDup arr → arr' !! 0 ≠ arr !! 0).
Proof.
  intros Hn1 Hn Hlen.
  destruct (shuffleSort_split arr n e Hn1 Hn)
    as (arr1 & e1 & _ & Hlen1 & H0 & Hrun).
  destruct (swap_Ok arr1 0 1) as (x & y & Hx & Hy & Hswap); [lia|lia|].
  rewrite Hswap in Hrun. cbn [bind] in Hrun.
  exists (<[1:=x]> (<[0:=y]> arr1)), e1.
  assert (H1 : <[1:=x]> (<[0:=y]> arr1) !! 1 = arr !! 0).
  { rewrite list_lookup_insert_eq by (rewrite length_insert; lia). congruence. }
  split_and!; [done|done|].
  intros Hnd Heq.
  apply shuffleSort_Permutation in Hrun as Hperm.
  rewrite <- Hperm in Hnd. rewrite <- H1 in Heq.
  destruct (lookup_lt_is_Some_2 (<[1:=x]> (<[0:=y]> arr1)) 0) as [c Hc].
  { rewrite !length_insert. lia. }
  rewrite Hc in Heq. symmetry in Heq.
  pose proof (NoDup_lookup _ _ _ _ Hnd Hc Heq). lia.
Qed.

(** X2: whatever the draws, the shuffle puts the element that was first at
    index 1; on distinct elements the first element therefore never stays
    first. *)
Theorem shuffleSort_first_goes_second (arr : list ascii) (n : nat) (e : entropy) :
  1 ≤ n → n ≤ length arr → 2 ≤ length arr →
  ∃ arr' e',
    shuffleSort arr n e = Ok (arr', e')
    ∧ arr' !! 1 = arr !! 0
    ∧ (NoDup arr → arr' !! 0 ≠ arr !! 0).
Proof. apply shuffleSort_index_1. Qed.

Lemma shuffleSort_first_goes_second_witness :
  ∃ arr' e',
    shuffleSort DIGIT_POOL_INIT DIGIT_COUNT entropy_example = Ok (arr', e')
    ∧ arr' !! 1 = DIGIT_POOL_INIT !! 0
    ∧ (NoDup DIGIT_POOL_INIT → arr' !! 0 ≠ DIGIT_POOL_INIT !! 0).
Proof.
  apply (shuffleSort_first_goes_second DIGIT_POOL_INIT DIGIT_COUNT entropy_example);
    vm_compute; lia.
Defined.

(** X3: the edges of the shuffle.  On an empty range it returns the array
    as it is without a draw.  On a range of one element it still swaps
    [arr[0]] with [arr[1]], an element outside the range, without a draw;
    when the array has no second element that access is out of bounds. *)
Theorem shuffleSort_small_ranges (arr : list ascii) (e : entropy) :
  shuffleSort arr 0 e = Ok (arr, e)
  ∧ (length arr ≤ 1 → shuffleSort arr 1 e = Fault OutOfBounds)
  ∧ (∀ x y rest, arr = x :: y :: rest →
       shuffleSort arr 1 e = Ok (y :: x :: rest, e)).
Proof.
  split_and!.
  - reflexivity.
  - intros Hlen. destruct arr as [|x [|y rest]]; [done|done|simpl in Hlen; lia].
  - by intros x y rest ->.
Qed.

(** ** Hints of a whole guess *)

Lemma hints_for_lookup (sec guess h : list ascii) :
  length h = length guess →
  (∀ i a, guess !! i = Some a → h !! i = Some (hint_for sec i a)) →
  h = hints_for sec guess.
Proof.
  intros Hlen Hh. apply list_eq. intros i. unfold hints_for.
  rewrite list_lookup_imap.
  destruct (guess !! i) as [a|] eqn:Ha; simpl.
  - by apply Hh.
  - apply lookup_ge_None. apply lookup_ge_None in Ha. lia.
Qed.

Lemma hints_for_all_correct (sec guess : list ascii) :
  length guess = length sec →
  all_correct (hints_for sec guess) (length sec) ↔ guess = sec.
Proof.
  intros Hlen. unfold all_correct, hints_for. split.
  - intros Hall. apply list_eq. intros i.
    destruct (decide (i < length sec)) as [Hi|Hi].
    + destruct (lookup_lt_is_Some_2 guess i) as [a Ha]; [lia|].
      destruct (lookup_lt_is_Some_2 sec i) as [b Hb]; [lia|].
      specialize (Hall i Hi). rewrite list_lookup_imap, Ha in Hall.
      injection Hall as Hall.
      apply (hint_for_cases sec i a b Hb) in Hall. congruence.
    + rewrite !(proj2 (lookup_ge_None _ _)) by lia. done.
  - intros -> i Hi.
    destruct (lookup_lt_is_Some_2 sec i) as [b Hb]; [lia|].
    rewrite list_lookup_imap, Hb. simpl. f_equal.
    by apply (hint_for_cases sec i b b Hb).
Qed.

Lemma hint_for_alphabet (sec : list ascii) (i : nat) (a : ascii) :
  hint_for sec i a ∈ [HINT_WRONG; HINT_MISPLACED; HINT_CORRECT].
Proof.
  unfold hint_for, scan_val.
  repeat case_decide; rewrite !elem_of_cons; tauto.
Qed.

(** ** The transitions of the session *)

Lemma newGame_world (w : world) :
  wf w →
  ∃ pool e,
    shuffleSort (randomDigitPool w) DIGIT_COUNT (rng w) = Ok (pool, e)
    ∧ newGame w = Ok (new_game_world w pool e).
Proof.
  intros Hwf. destruct (newGame_spec w Hwf) as (pool & e & Hsh & _ & _ & Hng).
  by exists pool, e.
Qed.

(** In a state satisfying the invariant [loop()] returns, and what it does
    is one of the transitions. *)
Lemma loop_transition (w : world) (key : ascii) :
  inv w → ∃ w', loop key w = Ok w' ∧ transition w key w'.
Proof.
  intros Hinv.
  pose proof Hinv as (Hwf & Hcnt & Hcnt' & Htr & Htr' & Hndp & Hnds).
  pose proof Hwf as (Hsec & Hinp & Hhnt & Hpool).
  destruct (is_digit key) eqn:Hd.
  - destruct (decide (state (gameData w) = GS_INPUT)) as [Hst|Hst].
    + specialize (Hcnt' Hst). unfold SECRET_LENGTH in Hcnt'.
      destruct (decide (inputCount (gameData w) = 3%N)) as [H3|H3].
      * destruct (loop_evaluate w key Hwf Hst Hd H3)
          as (h & solved & Hlen & Hh & _ & Hiff & ->).
        assert (Hh' : h = hints_for (secret (gameData w))
                                    (<[3:=key]> (input (gameData w)))).
        { apply hints_for_lookup; [|done]. rewrite length_insert. congruence. }
        assert (Hall : solved = true ↔
                       <[3:=key]> (input (gameData w)) = secret (gameData w)).
        { rewrite Hiff, Hh', <- Hsec. apply hints_for_all_correct.
          rewrite length_insert. congruence. }
        eexists; split; [done|]. rewrite Hh'.
        destruct solved.
        -- apply T_won; try done. by apply Hall.
        -- assert (<[3:=key]> (input (gameData w)) ≠ secret (gameData w)).
           { intros Heq. apply Hall in Heq. discriminate Heq. }
           destruct (TRIES_MAX <=? incr (tries (gameData w)))%N eqn:Hmax.
           ++ apply N.leb_le in Hmax. by apply T_lost.
           ++ apply N.leb_gt in Hmax. by apply T_continue.
      * rewrite loop_append by (done || lia).
        eexists; split; [done|]. apply T_append; [done|done|lia].
    + rewrite loop_digit_not_input by done.
      exists w. split; [done|]. apply T_ignored. right; left. done.
  - destruct (decide (key = BUTTON_NEWROUND)) as [->|Hnr].
    + rewrite loop_newround.
      destruct (state (gameData w)) eqn:Hst.
      * exists (resetInput w). split; [done|]. apply T_newround; congruence.
      * exists (resetInput w). split; [done|]. apply T_newround; congruence.
      * destruct (newGame_world w Hwf) as (pool & e & Hsh & ->).
        eexists; split; [done|]. apply T_newgame; [|done]. right. done.
    + destruct (decide (key = BUTTON_NEWGAME)) as [->|Hng].
      * rewrite loop_newgame.
        destruct (newGame_world w Hwf) as (pool & e & Hsh & ->).
        eexists; split; [done|]. apply T_newgame; [|done]. by left.
      * rewrite loop_other_key by done.
        exists w. split; [done|]. apply T_ignored. right; right. done.
Qed.

Lemma loop_transition_inv (w w' : world) (key : ascii) :
  inv w → loop key w = Ok w' → transition w key w'.
Proof.
  intros Hinv Hrun. destruct (loop_transition w key Hinv) as (w'' & Hrun' & Ht).
  congruence.
Qed.

Lemma run_snoc (keys : list ascii) (key : ascii) :
  ∀ w, run (keys ++ [key]) w = (let* w1 := run keys w in loop key w1).
Proof.
  induction keys as [|k keys IH]; intros w; simpl.
  - by rewrite bind_Ok_r.
  - destruct (loop k w) as [w1|f]; simpl; [apply IH|done].
Qed.

(** Induction over the reachable states: a property that holds after
    [setup()] and is kept by every transition holds in all of them. *)
Lemma reachable_transition_ind (P : world → Prop) :
  (∀ pool e e', shuffleSort DIGIT_POOL_INIT DIGIT_COUNT e = Ok (pool, e') →
                P (new_game_world (boot e) pool e')) →
  (∀ w key w', reachable w → P w → transition w key w' → P w') →
  ∀ w, reachable w → P w.
Proof.
  intros Hinit Hstep w (e & keys & Hrun). revert w Hrun.
  induction keys as [|key keys IH] using rev_ind; intros w Hrun.
  - simpl in Hrun. rewrite bind_Ok_r in Hrun.
    destruct (newGame_world (boot e) (wf_boot e)) as (pool & e' & Hsh & Hng).
    unfold setup in Hrun. rewrite Hng in Hrun. injection Hrun as <-.
    by eapply Hinit.
  - apply bind_Ok_inv in Hrun as (w0 & Hsetup & Hrun).
    rewrite run_snoc in Hrun.
    apply bind_Ok_inv in Hrun as (w1 & Hrun1 & Hloop).
    assert (Hreach : reachable w1).
    { exists e, keys. by rewrite Hsetup. }
    apply (Hstep w1 key w Hreach).
    + apply IH. by rewrite Hsetup.
    + apply loop_transition_inv; [by apply reachable_inv|done].
Qed.

(** ** Invariants of the reachable states *)

Lemma loop_inv_det (w w' : world) (key : ascii) :
  inv w → loop key w = Ok w' → inv w'.
Proof.
  intros Hinv Hrun. destruct (loop_inv w key Hinv) as (w'' & Hrun' & ?).
  congruence.
Qed.

Lemma reachable_pool_inv (w : world) : reachable w → pool_inv w.
Proof.
  revert w. apply reachable_transition_ind.
  - intros pool e e' Hsh. split; [|done]. simpl.
    by eapply shuffleSort_Permutation.
  - intros w key w' _ [Hperm Hsec] Ht.
    destruct Ht; try done. split; [|done]. simpl.
    etrans; [by eapply shuffleSort_Permutation|done].
Qed.

Lemma reachable_led_inv (w : world) : reachable w → led_inv w.
Proof.
  revert w. apply reachable_transition_ind.
  - intros pool e e' Hsh. by split.
  - intros w key w' Hreach Hled Ht.
    pose proof (reachable_inv w Hreach) as (_ & _ & _ & Htr & Htr' & _).
    unfold led_inv in *.
    destruct Ht as [ | Hst ? ? | Hst ? ? ? | Hst ? ? ? Hmax | Hst ? ? ? ?
                   | ? Hst | ]; simpl; try done.
    + by rewrite Hst in *.
    + rewrite Hst in Hled. destruct Hled as [_ ->]. left. done.
    + rewrite Hst in Hled. destruct Hled as [-> _]. right.
      split_and!; [done|done|done|].
      assert (tries (gameData w) < TRIES_MAX)%N by (apply Htr'; congruence).
      unfold TRIES_MAX in *. rewrite incr_small in * by lia. lia.
    + by rewrite Hst in Hled.
    + by destruct (state (gameData w)).
Qed.

Lemma reachable_hints_inv (w : world) : reachable w → hints_inv w.
Proof.
  revert w. apply reachable_transition_ind.
  - intros pool e e' Hsh. by intros ?.
  - intros w key w' _ Hh Ht. unfold hints_inv in *.
    destruct Ht; simpl; done.
Qed.

Lemma DIGIT_POOL_INIT_digits : Forall (λ c, is_digit c = true) DIGIT_POOL_INIT.
Proof. repeat constructor. Qed.

(** X4: in every reachable state both LEDs are off unless the game is
    over; once it is over exactly one is on: the win LED, and then the
    guess in the buffer is the secret, or the lose LED, and then the guess
    differs from the secret and the try count is [TRIES_MAX]. *)
Theorem led_pins_tell_outcome (w : world) :
  reachable w →
  (state (gameData w) ≠ GS_GAMEOVER → ledWin w = false ∧ ledLose w = false)
  ∧ (state (gameData w) = GS_GAMEOVER →
     (ledWin w = true ∧ ledLose w = false
      ∧ input (gameData w) = secret (gameData w))
     ∨ (ledWin w = false ∧ ledLose w = true
        ∧ input (gameData w) ≠ secret (gameData w)
        ∧ tries (gameData w) = TRIES_MAX)).
Proof.
  intros Hled%reachable_led_inv. unfold led_inv in Hled.
  destruct (state (gameData w)); split; try done; by intros _.
Qed.

Lemma led_pins_tell_outcome_witness :
  (state (gameData world_won) ≠ GS_GAMEOVER →
   ledWin world_won = false ∧ ledLose world_won = false)
  ∧ (state (gameData world_won) = GS_GAMEOVER →
     (ledWin world_won = true ∧ ledLose world_won = false
      ∧ input (gameData world_won) = secret (gameData world_won))
     ∨ (ledWin world_won = false ∧ ledLose world_won = true
        ∧ input (gameData world_won) ≠ secret (gameData world_won)
        ∧ tries (gameData world_won) = TRIES_MAX)).
Proof.
  apply (led_pins_tell_outcome world_won).
  exists entropy_example, ["5"; "0"; "7"; "6"]%char. reflexivity.
Defined.

(** X5: in every reachable state in which a round is over ([GS_ROUNDOVER]
    or [GS_GAMEOVER]) the guess buffer is full and every hint in the hint
    buffer is the evaluation of the digit at the same position of the guess
    buffer against the secret in effect. *)
Theorem hints_match_guess (w : world) :
  reachable w →
  state (gameData w) ≠ GS_INPUT →
  inputCount (gameData w) = N.of_nat SECRET_LENGTH
  ∧ length (hints (gameData w)) = length (input (gameData w))
  ∧ ∀ i a, input (gameData w) !! i = Some a →
           hints (gameData w) !! i = Some (hint_for (secret (gameData w)) i a).
Proof.
  intros Hreach Hst.
  destruct (reachable_hints_inv w Hreach Hst) as [Hcnt Hh].
  destruct (reachable_inv w Hreach) as ((_ & Hinp & Hhnt & _) & _).
  split_and!; [done|congruence|].
  intros i a Ha. rewrite Hh. unfold hints_for.
  by rewrite list_lookup_imap, Ha.
Qed.

Lemma hints_match_guess_witness :
  inputCount (gameData world_won) = N.of_nat SECRET_LENGTH
  ∧ length (hints (gameData world_won)) = length (input (gameData world_won))
  ∧ ∀ i a, input (gameData world_won) !! i = Some a →
           hints (gameData world_won) !! i
           = Some (hint_for (secret (gameData world_won)) i a).
Proof.
  apply (hints_match_guess world_won).
  - exists entropy_example, ["5"; "0"; "7"; "6"]%char. reflexivity.
  - discriminate.
Defined.

(** X6: in every reachable state the pool is a permutation of the ten
    digits, the secret is the first [SECRET_LENGTH] entries of the pool,
    and every digit of the secret is a key the sketch accepts as a
    digit. *)
Theorem secret_is_pool_prefix (w : world) :
  reachable w →
  randomDigitPool w ≡ₚ DIGIT_POOL_INIT
  ∧ secret (gameData w) = take SECRET_LENGTH (randomDigitPool w)
  ∧ Forall (λ c, is_digit c = true) (secret (gameData w)).
Proof.
  intros [Hperm Hsec]%reachable_pool_inv. split_and!; [done|done|].
  rewrite Hsec. apply Forall_take. rewrite Hperm.
  apply DIGIT_POOL_INIT_digits.
Qed.

Lemma secret_is_pool_prefix_witness :
  randomDigitPool world_second_round ≡ₚ DIGIT_POOL_INIT
  ∧ secret (gameData world_second_round)
    = take SECRET_LENGTH (randomDigitPool world_second_round)
  ∧ Forall (λ c, is_digit c = true) (secret (gameData world_second_round)).
Proof.
  apply (secret_is_pool_prefix world_second_round).
  exists entropy_example, ["5"; "5"; "0"; "0"; "1"; "*"; "5"; "7"]%char.
  reflexivity.
Defined.

(** ** Whole guesses *)

Lemma run_three_digits (w : world) (a b c : ascii) :
  inv w → state (gameData w) = GS_INPUT → inputCount (gameData w) = 0%N →
  is_digit a = true → is_digit b = true → is_digit c = true →
  ∃ w3, run [a; b; c] w = Ok w3
        ∧ inv w3
        ∧ state (gameData w3) = GS_INPUT
        ∧ inputCount (gameData w3) = 3%N
        ∧ (∀ d, <[3:=d]> (input (gameData w3)) = [a; b; c; d])
        ∧ secret (gameData w3) = secret (gameData w)
        ∧ tries (gameData w3) = tries (gameData w)
        ∧ ledWin w3 = ledWin w ∧ ledLose w3 = ledLose w
        ∧ lcdMessages w3 = lcdMessages w.
Proof.
  intros Hinv Hst Hcnt Ha Hb Hc.
  assert (Hstep : ∀ w0 k, inv w0 → state (gameData w0) = GS_INPUT →
            (inputCount (gameData w0) < 3)%N → is_digit k = true →
            loop k w0 = Ok (appended w0 k) ∧ inv (appended w0 k)).
  { intros w0 k Hinv0 Hst0 Hcnt0 Hk.
    assert (Hl : loop k w0 = Ok (appended w0 k))
      by (apply loop_append; [by destruct Hinv0|done..]).
    split; [done|]. by eapply loop_inv_det. }
  destruct (Hstep w a) as [Hl1 Hinv1]; [done|done|lia|done|].
  destruct (Hstep (appended w a) b) as [Hl2 Hinv2];
    [done|done|simpl; lia|done|].
  destruct (Hstep (appended (appended w a) b) c) as [Hl3 Hinv3];
    [done|done|simpl; lia|done|].
  exists (appended (appended (appended w a) b) c).
  cbn [run]. rewrite Hl1. cbn [bind]. rewrite Hl2. cbn [bind].
  rewrite Hl3. cbn [bind].
  destruct Hinv as ((_ & Hinp & _) & _).
  split_and!; try done.
  - simpl. rewrite Hcnt. done.
  - intros d. simpl. rewrite Hcnt.
    destruct (input (gameData w)) as [|x0 [|x1 [|x2 [|x3 [|]]]]]; done.
Qed.

Lemma submit_guess_aux (w : world) (a b c d : ascii) :
  inv w → state (gameData w) = GS_INPUT → inputCount (gameData w) = 0%N →
  is_digit a = true → is_digit b = true → is_digit c = true →
  is_digit d = true →
  ∃ w', run (guess_keys a b c d) w = Ok w'
        ∧ input (gameData w') = [a; b; c; d]
        ∧ inputCount (gameData w') = 4%N
        ∧ hints (gameData w') = hints_for (secret (gameData w)) [a; b; c; d]
        ∧ secret (gameData w') = secret (gameData w)
        ∧ tries (gameData w') = (tries (gameData w) + 1)%N
        ∧ ([a; b; c; d] = secret (gameData w) →
           state (gameData w') = GS_GAMEOVER
           ∧ announced w' = Some WON ∧ ledWin w' = true)
        ∧ ([a; b; c; d] ≠ secret (gameData w) → tries (gameData w) = 11%N →
           state (gameData w') = GS_GAMEOVER
           ∧ announced w' = Some LOST ∧ ledLose w' = true)
        ∧ ([a; b; c; d] ≠ secret (gameData w) → (tries (gameData w) < 11)%N →
           state (gameData w') = GS_ROUNDOVER
           ∧ announced w' = Some CONTINUE).
Proof.
  intros Hinv Hst Hcnt Ha Hb Hc Hd.
  destruct (run_three_digits w a b c Hinv Hst Hcnt Ha Hb Hc)
    as (w3 & Hrun & Hinv3 & Hst3 & Hcnt3 & Hinp3 & Hsec3 & Htr3 & _).
  assert (Htries : (tries (gameData w) < 12)%N).
  { destruct Hinv as (_ & _ & _ & _ & Htr' & _). apply Htr'. congruence. }
  destruct (loop_transition w3 d Hinv3) as (w' & Hloop & Ht).
  exists w'. split.
  { change (guess_keys a b c d) with ([a; b; c] ++ [d]).
    rewrite run_snoc, Hrun. done. }
  destruct Ht as [Hig | ? ? Hlt | _ _ _ Heq | _ _ _ Hne Hmax | _ _ _ Hne Hmax
                 | Hk _ | pool e [Hk|[Hk _]] _ ].
  - destruct Hig as [->|[[_ ?]|[? _]]]; [done|done|congruence].
  - lia.
  - unfold evaluated; simpl. rewrite !Hinp3, Hsec3, Htr3 in *.
    rewrite incr_small by lia. split_and!; try done.
  - unfold evaluated; simpl. rewrite !Hinp3, Hsec3, Htr3 in *.
    rewrite incr_small in * by lia. unfold TRIES_MAX in Hmax.
    split_and!; try done. intros _ ?. lia.
  - unfold evaluated; simpl. rewrite !Hinp3, Hsec3, Htr3 in *.
    rewrite incr_small in * by lia. unfold TRIES_MAX in Hmax.
    split_and!; try done. intros _ ?. lia.
  - subst d. discriminate Hd.
  - subst d. discriminate Hd.
  - subst d. discriminate Hd.
Qed.

(** X7: a whole guess.  From a reachable state at the start of a round,
    four digit keys fill the guess buffer with exactly those digits, store
    their evaluation in the hint buffer, keep the secret and add one try.
    The player wins exactly when the digits are the secret; otherwise the
    game is lost on the twelfth try and continues before it. *)
Theorem submit_guess (w : world) (a b c d : ascii) :
  reachable w →
  state (gameData w) = GS_INPUT → inputCount (gameData w) = 0%N →
  is_digit a = true → is_digit b = true → is_digit c = true →
  is_digit d = true →
  ∃ w', run (guess_keys a b c d) w = Ok w'
        ∧ input (gameData w') = [a; b; c; d]
        ∧ inputCount (gameData w') = 4%N
        ∧ hints (gameData w') = hints_for (secret (gameData w)) [a; b; c; d]
        ∧ secret (gameData w') = secret (gameData w)
        ∧ tries (gameData w') = (tries (gameData w) + 1)%N
        ∧ ([a; b; c; d] = secret (gameData w) →
           state (gameData w') = GS_GAMEOVER
           ∧ announced w' = Some WON ∧ ledWin w' = true)
        ∧ ([a; b; c; d] ≠ secret (gameData w) → tries (gameData w) = 11%N →
           state (gameData w') = GS_GAMEOVER
           ∧ announced w' = Some LOST ∧ ledLose w' = true)
        ∧ ([a; b; c; d] ≠ secret (gameData w) → (tries (gameData w) < 11)%N →
           state (gameData w') = GS_ROUNDOVER
           ∧ announced w' = Some CONTINUE).
Proof. intros Hinv%reachable_inv. by apply submit_guess_aux. Qed.

Lemma submit_guess_witness :
  ∃ w', run (guess_keys "1" "2" "3" "4") (resetInput world_second_round) = Ok w'
        ∧ input (gameData w') = ["1"; "2"; "3"; "4"]%char
        ∧ tries (gameData w') = 2%N.
Proof.
  destruct (submit_guess (resetInput world_second_round) "1" "2" "3" "4")
    as (w' & Hrun & Hinp & _ & _ & _ & Htr & _).
  - exists entropy_example,
      ["5"; "5"; "0"; "0"; "1"; "*"; "5"; "7"; "*"]%char. reflexivity.
  - reflexivity.
  - reflexivity.
  - reflexivity.
  - reflexivity.
  - reflexivity.
  - reflexivity.
  - exists w'. by split_and!.
Defined.

(** X8: every game can be won.  From a reachable state at the start of a
    round, typing the digits of the secret in effect ends the game with
    the win banner and the win LED on, whatever the try count was. *)
Theorem typing_the_secret_wins (w : world) :
  reachable w →
  state (gameData w) = GS_INPUT → inputCount (gameData w) = 0%N →
  ∃ w', run (secret (gameData w)) w = Ok w'
        ∧ state (gameData w') = GS_GAMEOVER
        ∧ announced w' = Some WON
        ∧ ledWin w' = true
        ∧ input (gameData w') = secret (gameData w')
        ∧ tries (gameData w') = (tries (gameData w) + 1)%N.
Proof.
  intros Hreach Hst Hcnt.
  pose proof (reachable_inv w Hreach) as Hinv.
  destruct (reachable_pool_inv w Hreach) as [Hperm Hsec].
  assert (Hdig : Forall (λ c, is_digit c = true) (secret (gameData w))).
  { rewrite Hsec. apply Forall_take. rewrite Hperm.
    apply DIGIT_POOL_INIT_digits. }
  destruct Hinv as [[Hlen ?] ?].
  destruct (secret (gameData w)) as [|a [|b [|c [|d [|]]]]] eqn:Hs;
    try discriminate Hlen.
  apply Forall_cons in Hdig as [Ha Hdig].
  apply Forall_cons in Hdig as [Hb Hdig].
  apply Forall_cons in Hdig as [Hc Hdig].
  apply Forall_cons in Hdig as [Hd _].
  destruct (submit_guess_aux w a b c d)
    as (w' & Hrun & Hinp & _ & _ & Hsec' & Htr & Hwon & _); try done.
  { by apply reachable_inv. }
  rewrite Hs in Hwon, Hsec'. destruct (Hwon eq_refl) as (? & ? & ?).
  exists w'. split_and!; try done. congruence.
Qed.

Lemma typing_the_secret_wins_witness :
  ∃ w', run (secret (gameData world_second_round))
            (resetInput world_second_round) = Ok w'
        ∧ state (gameData w') = GS_GAMEOVER
        ∧ announced w' = Some WON.
Proof.
  destruct (typing_the_secret_wins (resetInput world_second_round))
    as (w' & Hrun & Hst & Hwon & _).
  - exists entropy_example,
      ["5"; "5"; "0"; "0"; "1"; "*"; "5"; "7"; "*"]%char. reflexivity.
  - reflexivity.
  - reflexivity.
  - exists w'. by split_and!.
Defined.

(** ** Successive secrets *)

Lemma new_game_secret (w : world) (pool : list ascii) (e : entropy) :
  inv w → pool_inv w →
  shuffleSort (randomDigitPool w) DIGIT_COUNT (rng w) = Ok (pool, e) →
  take SECRET_LENGTH pool !! 1 = secret (gameData w) !! 0
  ∧ take SECRET_LENGTH pool !! 0 ≠ secret (gameData w) !! 0.
Proof.
  intros ((_ & _ & _ & Hlen) & _ & _ & _ & _ & Hnd & _) [_ Hsec] Hsh.
  destruct (shuffleSort_index_1 (randomDigitPool w) DIGIT_COUNT (rng w))
    as (pool' & e' & Hsh' & H1 & H0);
    [unfold DIGIT_COUNT; lia|lia|rewrite Hlen; unfold DIGIT_COUNT; lia|].
  rewrite Hsh in Hsh'. injection Hsh' as <- <-.
  rewrite Hsec. rewrite !lookup_take_lt by (unfold SECRET_LENGTH; lia).
  split; [done|by apply H0].
Qed.

(** X9: the next secret gives away a digit.  When a new game is started
    from a reachable state (['#'], or ['*'] once the game is over), the
    second digit of the new secret is the first digit of the old one, and
    the first digit of the new secret differs from it. *)
Theorem next_secret_repeats_first_digit (w : world) (key : ascii) :
  reachable w →
  key = BUTTON_NEWGAME
  ∨ (key = BUTTON_NEWROUND ∧ state (gameData w) = GS_GAMEOVER) →
  ∃ w', loop key w = Ok w'
        ∧ secret (gameData w') !! 1 = secret (gameData w) !! 0
        ∧ secret (gameData w') !! 0 ≠ secret (gameData w) !! 0.
Proof.
  intros Hreach Hkey.
  pose proof (reachable_inv w Hreach) as Hinv.
  pose proof (reachable_pool_inv w Hreach) as Hpool.
  destruct (newGame_world w (proj1 Hinv)) as (pool & e & Hsh & Hng).
  exists (new_game_world w pool e). split.
  - destruct Hkey as [->|[-> Hst]]; [by rewrite loop_newgame|].
    by rewrite loop_newround, Hst.
  - by apply (new_game_secret w pool e).
Qed.

Lemma next_secret_repeats_first_digit_witness :
  ∃ w', loop BUTTON_NEWGAME world_second_round = Ok w'
        ∧ secret (gameData w') !! 1 = secret (gameData world_second_round) !! 0
        ∧ secret (gameData w') !! 0 ≠ secret (gameData world_second_round) !! 0.
Proof.
  apply (next_secret_repeats_first_digit world_second_round BUTTON_NEWGAME).
  - exists entropy_example, ["5"; "5"; "0"; "0"; "1"; "*"; "5"; "7"]%char.
    reflexivity.
  - left. reflexivity.
Defined.

(** X10: whatever the seed, [setup()] returns a state awaiting input with
    no try made, an empty guess, both LEDs off and nothing announced, and
    the first secret has ['0'] as its second digit and not as its first. *)
Theorem setup_first_secret (e : entropy) :
  ∃ w, setup e = Ok w
       ∧ state (gameData w) = GS_INPUT
       ∧ tries (gameData w) = 0%N
       ∧ inputCount (gameData w) = 0%N
       ∧ ledWin w = false ∧ ledLose w = false
       ∧ lcdMessages w = []
       ∧ secret (gameData w) !! 1 = Some "0"%char
       ∧ secret (gameData w) !! 0 ≠ Some "0"%char.
Proof.
  destruct (newGame_world (boot e) (wf_boot e)) as (pool & e' & Hsh & Hng).
  exists (new_game_world (boot e) pool e'). split; [done|].
  destruct (shuffleSort_index_1 DIGIT_POOL_INIT DIGIT_COUNT e)
    as (pool' & e'' & Hsh' & H1 & H0); [vm_compute; lia..|].
  change (randomDigitPool (boot e)) with DIGIT_POOL_INIT in Hsh.
  change (rng (boot e)) with e in Hsh.
  rewrite Hsh in Hsh'. injection Hsh' as <- <-.
  simpl. rewrite !lookup_take_lt by (unfold SECRET_LENGTH; lia).
  split_and!; try done. apply H0. apply DIGIT_POOL_INIT_NoDup.
Qed.

(** X11: within a game nothing touches the generator.  From a reachable
    state, a key that does not start a new game leaves the secret, the
    digit pool and the entropy state as they were, and the try count does
    not decrease. *)
Theorem game_keeps_secret (w w' : world) (key : ascii) :
  reachable w →
  loop key w = Ok w' →
  key ≠ BUTTON_NEWGAME →
  ¬ (key = BUTTON_NEWROUND ∧ state (gameData w) = GS_GAMEOVER) →
  secret (gameData w') = secret (gameData w)
  ∧ randomDigitPool w' = randomDigitPool w
  ∧ rng w' = rng w
  ∧ (tries (gameData w) ≤ tries (gameData w'))%N.
Proof.
  intros Hreach Hloop Hng Hnr.
  pose proof (reachable_inv w Hreach) as Hinv.
  pose proof (loop_transition_inv w w' key Hinv Hloop) as Ht.
  assert (Hincr : state (gameData w) = GS_INPUT →
                  (tries (gameData w) ≤ incr (tries (gameData w)))%N).
  { intros Hst. destruct Hinv as (_ & _ & _ & _ & Htr' & _).
    assert (tries (gameData w) < TRIES_MAX)%N by (apply Htr'; congruence).
    unfold TRIES_MAX in *. rewrite incr_small by lia. lia. }
  destruct Ht as [ | | Hst | Hst | Hst | | pool e Hkey ]; simpl;
    try (split_and!; (done || lia || by apply Hincr)).
  destruct Hkey; done.
Qed.

Lemma game_keeps_secret_witness :
  secret (gameData (resetInput world_second_round))
  = secret (gameData world_second_round)
  ∧ randomDigitPool (resetInput world_second_round)
    = randomDigitPool world_second_round
  ∧ rng (resetInput world_second_round) = rng world_second_round
  ∧ (tries (gameData world_second_round)
     ≤ tries (gameData (resetInput world_second_round)))%N.
Proof.
  apply (game_keeps_secret world_second_round (resetInput world_second_round)
           BUTTON_NEWROUND).
  - exists entropy_example, ["5"; "5"; "0"; "0"; "1"; "*"; "5"; "7"]%char.
    reflexivity.
  - reflexivity.
  - discriminate.
  - intros [_ H]. discriminate H.
Defined.

(** ** Evaluation and the win test *)

(** X12: on buffers of length [SECRET_LENGTH], [checkInput] followed by
    [isSolved] returns true exactly when the guess equals the secret;
    every hint written is one of the three hint characters, and the guess
    and the secret are left as they were. *)
Theorem solved_iff_guess_is_secret (w : world) :
  length (input (gameData w)) = SECRET_LENGTH →
  length (secret (gameData w)) = SECRET_LENGTH →
  length (hints (gameData w)) = SECRET_LENGTH →
  ∃ w' b,
    checkInput w = Ok w'
    ∧ isSolved w' = Ok b
    ∧ (b = true ↔ input (gameData w) = secret (gameData w))
    ∧ Forall (λ h, h ∈ [HINT_WRONG; HINT_MISPLACED; HINT_CORRECT])
             (hints (gameData w'))
    ∧ input (gameData w') = input (gameData w)
    ∧ secret (gameData w') = secret (gameData w).
Proof.
  intros Hinp Hsec Hhnt.
  destruct (checkInput_n_hints _ _ _ _ Hinp Hsec Hhnt) as (h & Hrun & Hlen & Hh).
  assert (Hh' : h = hints_for (secret (gameData w)) (input (gameData w)))
    by (apply hints_for_lookup; [congruence|done]).
  destruct (isSecretSolved_spec h SECRET_LENGTH) as (b & Hb & Hiff); [lia|].
  exists (set_gameData (set_hints h (gameData w)) w), b.
  unfold checkInput, isSolved. rewrite Hrun. simpl.
  split_and!; [done|done| | |done|done].
  - rewrite Hiff, Hh', <- Hsec. apply hints_for_all_correct. congruence.
  - rewrite Hh'. unfold hints_for. apply Forall_lookup. intros i c.
    rewrite list_lookup_imap.
    destruct (input (gameData w) !! i); simpl; [|done].
    intros [= <-]. apply hint_for_alphabet.
Qed.

Lemma solved_iff_guess_is_secret_witness :
  ∃ w' b,
    checkInput world_1234_2222 = Ok w'
    ∧ isSolved w' = Ok b
    ∧ (b = true ↔
       input (gameData world_1234_2222) = secret (gameData world_1234_2222)).
Proof.
  destruct (solved_iff_guess_is_secret world_1234_2222)
    as (w' & b & Hc & Hs & Hiff & _); [reflexivity..|].
  exists w', b. by split_and!.
Defined.

Lemma isSecretSolved_from_short (hnt : list ascii) (count : nat) :
  ∀ i, i ≤ length hnt → length hnt < i + count →
    isSecretSolved_from count i hnt
    = if decide (Forall (λ c, c = HINT_CORRECT) (drop i hnt))
      then Fault OutOfBounds else Ok false.
Proof.
  induction count as [|count IH]; intros i Hle Hi; [lia|].
  cbn [isSecretSolved_from].
  destruct (hnt !! i) as [h|] eqn:Hh.
  - rewrite (rd_Ok _ _ _ Hh); cbn [bind].
    rewrite (drop_S _ _ _ Hh).
    apply lookup_lt_Some in Hh as Hlt.
    destruct (decide (h ≠ HINT_CORRECT)) as [Hne|Heq].
    + rewrite decide_False; [done|]. by intros [? _]%Forall_cons.
    + apply dec_stable in Heq. rewrite IH by lia.
      destruct (decide (Forall (λ c, c = HINT_CORRECT) (drop (S i) hnt))).
      * by rewrite decide_True by (by apply Forall_cons).
      * rewrite decide_False; [done|]. by intros [_ ?]%Forall_cons.
  - unfold rd. rewrite Hh. cbn [bind].
    apply lookup_ge_None in Hh. rewrite drop_ge by lia.
    by rewrite decide_True by constructor.
Qed.

(** X13: the edges of [isSecretSolved].  For [n = 0] it returns true.
    When [n] exceeds the hint array, it returns false as soon as it meets
    a hint that is not [HINT_CORRECT], and reads past the end of the array
    exactly when every hint of the array is [HINT_CORRECT]. *)
Theorem isSecretSolved_edges (hnt : list ascii) (n : nat) :
  isSecretSolved hnt 0 = Ok true
  ∧ (length hnt < n →
     (Forall (λ c, c = HINT_CORRECT) hnt →
      isSecretSolved hnt n = Fault OutOfBounds)
     ∧ (¬ Forall (λ c, c = HINT_CORRECT) hnt →
        isSecretSolved hnt n = Ok false)).
Proof.
  split; [done|]. intros Hn. unfold isSecretSolved.
  rewrite isSecretSolved_from_short by lia. rewrite drop_0.
  split; intros H; [by rewrite decide_True|by rewrite decide_False].
Qed.

(** ** Digit keys and the generator with duplicates *)

(** X14: the keys [loop()] accepts as digits are exactly the ten characters
    of the digit pool, so every character a secret can hold can be typed
    and every digit typed can occur in a secret. *)
Theorem is_digit_iff_in_pool (key : ascii) :
  is_digit key = true ↔ key ∈ DIGIT_POOL_INIT.
Proof.
  rewrite <- (bool_decide_spec (key ∈ DIGIT_POOL_INIT)).
  assert (H : is_digit key = bool_decide (key ∈ DIGIT_POOL_INIT)).
  { destruct key as [[] [] [] [] [] [] [] []]; vm_compute; reflexivity. }
  rewrite H. by destruct (bool_decide (key ∈ DIGIT_POOL_INIT)).
Qed.

Lemma digit_char (r : nat) :
  r < 10 → is_digit (ascii_of_nat (nat_of_ascii "0" + r)) = true.
Proof.
  intros Hr. do 10 (destruct r as [|r]; [reflexivity|]). lia.
Qed.

Lemma fill_random_Ok (count : nat) :
  ∀ (i0 : nat) (sec : list ascii) (e : entropy),
    i0 + count ≤ length sec →
    ∃ sec',
      for_up count i0
        (fun i '(sec, e) =>
           let '(r, e') := random DIGIT_COUNT e in
           let* sec' := wr sec i (ascii_of_nat (nat_of_ascii "0" + r)) in
           Ok (sec', e'))
        (sec, e)
      = Ok (sec', {| raw := raw e; drawn := drawn e + count |})
      ∧ length sec' = length sec
      ∧ (∀ k, k < i0 → sec' !! k = sec !! k)
      ∧ (∀ k, k < count → sec' !! (i0 + k) = Some (drawn_digit e k))
      ∧ (∀ k, i0 + count ≤ k → sec' !! k = sec !! k).
Proof.
  induction count as [|count IH]; intros i0 sec e Hlen.
  - exists sec. cbn [for_up]. rewrite Nat.add_0_r. destruct e.
    split_and!; try done. intros k ?. lia.
  - cbn [for_up].
    change (random DIGIT_COUNT e)
      with (raw e (drawn e) mod DIGIT_COUNT,
            {| raw := raw e; drawn := S (drawn e) |}).
    cbv iota beta. rewrite wr_Ok by lia. cbn [bind].
    destruct (IH (S i0) (<[i0:=drawn_digit e 0]> sec)
                {| raw := raw e; drawn := S (drawn e) |})
      as (sec' & Hrun & Hlen' & Hlow & Hmid & Hhigh).
    { rewrite length_insert. lia. }
    exists sec'. unfold drawn_digit at 1 in Hrun.
    rewrite Nat.add_0_r in Hrun. rewrite Hrun. cbn [raw drawn].
    split_and!.
    + do 3 f_equal. lia.
    + by rewrite Hlen', length_insert.
    + intros k Hk. rewrite Hlow by lia. by rewrite list_lookup_insert_ne by lia.
    + intros [|k] Hk.
      * rewrite Nat.add_0_r, Hlow by lia.
        by rewrite list_lookup_insert_eq by lia.
      * replace (i0 + S k) with (S i0 + k) by lia. rewrite Hmid by lia.
        unfold drawn_digit. cbn [raw drawn].
        by replace (S (drawn e) + k) with (drawn e + S k) by lia.
    + intros k Hk. rewrite Hhigh by lia. by rewrite list_lookup_insert_ne by lia.
Qed.

(** X15: with duplicates allowed the generator returns, leaves the digit
    pool alone, makes exactly [SECRET_LENGTH] draws, and the digit at
    position [k] of the secret is ['0'] plus the [k]-th draw modulo
    [DIGIT_COUNT]; every digit is a digit key, and equal draws give equal
    digits, so duplicates do occur. *)
Theorem generateSecret_with_duplicates (w : world) :
  length (secret (gameData w)) = SECRET_LENGTH →
  ∃ w',
    generateSecret true w = Ok w'
    ∧ secret (gameData w') = map (drawn_digit (rng w)) (seq 0 SECRET_LENGTH)
    ∧ Forall (λ c, is_digit c = true) (secret (gameData w'))
    ∧ randomDigitPool w' = randomDigitPool w
    ∧ rng w' = {| raw := raw (rng w); drawn := drawn (rng w) + SECRET_LENGTH |}
    ∧ (∀ i j, i < SECRET_LENGTH → j < SECRET_LENGTH →
         raw (rng w) (drawn (rng w) + i) = raw (rng w) (drawn (rng w) + j) →
         secret (gameData w') !! i = secret (gameData w') !! j).
Proof.
  intros Hlen.
  destruct (fill_random_Ok SECRET_LENGTH 0 (secret (gameData w)) (rng w))
    as (sec' & Hrun & Hlen' & _ & Hmid & _); [lia|].
  assert (Hsec : sec' = map (drawn_digit (rng w)) (seq 0 SECRET_LENGTH)).
  { apply list_eq. intros k. rewrite list_lookup_fmap.
    destruct (decide (k < SECRET_LENGTH)) as [Hk|Hk].
    - rewrite (Hmid k Hk : sec' !! k = _).
      by rewrite lookup_seq_lt by done.
    - rewrite lookup_seq_ge by lia. apply lookup_ge_None. lia. }
  eexists. unfold generateSecret, generateSecret_at.
  rewrite Hrun. cbn [bind]. split; [reflexivity|]. simpl_world.
  split_and!; [done| |done|done|].
  - rewrite Hsec. apply Forall_fmap, Forall_forall. intros k _.
    apply digit_char. apply Nat.mod_upper_bound. done.
  - intros i j Hi Hj Heq.
    rewrite (Hmid i Hi : sec' !! i = _), (Hmid j Hj : sec' !! j = _).
    unfold drawn_digit. by rewrite Heq.
Qed.

Lemma generateSecret_with_duplicates_witness :
  ∃ w',
    generateSecret true (boot entropy_example) = Ok w'
    ∧ secret (gameData w')
      = map (drawn_digit (rng (boot entropy_example))) (seq 0 SECRET_LENGTH)
    ∧ randomDigitPool w' = randomDigitPool (boot entropy_example).
Proof.
  destruct (generateSecret_with_duplicates (boot entropy_example))
    as (w' & Hrun & Hsec & _ & Hpool & _); [reflexivity|].
  exists w'. by split_and!.
Defined.

(** ** The unit test *)

Lemma NoDup_short (l : list ascii) : length l ≤ 1 → NoDup l.
Proof.
  destruct l as [|x [|y l]]; simpl; intros Hl; [constructor| |lia].
  apply NoDup_singleton.
Qed.

Lemma checkUniques_scan_spec (arr : list ascii) (i : nat) (ai : ascii) (n : nat) :
  arr !! i = Some ai →
  ∀ j, j + n ≤ length arr →
    checkUniques_scan n j i arr = Ok (bool_decide (ai ∈ take n (drop j arr))).
Proof.
  intros Hi. induction n as [|n IH]; intros j Hj; cbn [checkUniques_scan].
  - rewrite take_0. by rewrite bool_decide_false by (by intros ?%elem_of_nil).
  - destruct (lookup_lt_is_Some_2 arr j) as [aj Haj]; [lia|].
    rewrite (rd_Ok _ _ _ Haj), (rd_Ok _ _ _ Hi). cbn [bind].
    rewrite (drop_S _ _ _ Haj), firstn_cons.
    destruct (decide (aj = ai)) as [->|Hne].
    + by rewrite bool_decide_true by (apply elem_of_cons; by left).
    + rewrite IH by lia. f_equal. apply bool_decide_ext.
      rewrite elem_of_cons. split; [by right|]. by intros [?|?].
Qed.

Lemma checkUniques_from_spec (arr : list ascii) (bound : nat) (n : nat) :
  bound ≤ length arr →
  ∀ i, bound - 1 ≤ i + n →
    checkUniques_from n i bound arr
    = Ok (bool_decide (NoDup (take (bound - i) (drop i arr)))).
Proof.
  intros Hb. induction n as [|n IH]; intros i Hi; cbn [checkUniques_from].
  - rewrite bool_decide_true; [done|].
    apply NoDup_short. rewrite length_take. lia.
  - destruct (decide (i + 1 < bound)) as [Hlt|Hge].
    + destruct (lookup_lt_is_Some_2 arr i) as [ai Hai]; [lia|].
      rewrite (checkUniques_scan_spec arr i ai _ Hai) by lia. cbn [bind].
      replace (bound - i) with (S (bound - (i + 1))) by lia.
      rewrite (drop_S _ _ _ Hai), firstn_cons.
      replace (S i) with (i + 1) by lia.
      destruct (decide (ai ∈ take (bound - (i + 1)) (drop (i + 1) arr)))
        as [Hin|Hout].
      * rewrite bool_decide_true by done.
        rewrite bool_decide_false; [done|]. by intros [? _]%NoDup_cons.
      * rewrite bool_decide_false by done.
        replace (i + 1) with (S i) by lia. rewrite IH by lia.
        f_equal. apply bool_decide_ext. rewrite NoDup_cons.
        replace (bound - S i) with (bound - (i + 1)) by lia.
        replace (S i) with (i + 1) in * by lia. tauto.
    + replace (bound - (i + 1)) with 0 by lia. cbn [checkUniques_scan bind].
      rewrite IH by lia. f_equal.
      rewrite !bool_decide_true; [done|..];
        apply NoDup_short; rewrite length_take; lia.
Qed.

(** X16: [checkUniques(arr, count)] of the unit test returns for every
    [count] within the array, [count = 0] included, and returns true
    exactly when the first [count] elements are pairwise distinct. *)
Theorem checkUniques_decides_distinct (arr : list ascii) (count : nat) :
  count ≤ length arr →
  ∃ b, checkUniques arr count = Ok b ∧ (b = true ↔ NoDup (take count arr)).
Proof.
  intros Hc. eexists. split.
  - unfold checkUniques. apply checkUniques_from_spec; [done|].
    destruct count; [lia|]. unfold checkUniques_end. lia.
  - by rewrite Nat.sub_0_r, drop_0, bool_decide_eq_true.
Qed.

Lemma checkUniques_decides_distinct_witness :
  ∃ b, checkUniques DIGIT_POOL_INIT 10 = Ok b
       ∧ (b = true ↔ NoDup (take 10 DIGIT_POOL_INIT)).
Proof.
  apply (checkUniques_decides_distinct DIGIT_POOL_INIT 10). vm_compute. lia.
Defined.

(** X17: the earlier revision of [checkUniques], whose inner loop stops at
    [count - 1], never looks at the last element: it returns true exactly
    when the first [count - 1] elements are pairwise distinct.  An array
    whose only repetition is its last element passes it and fails the
    current revision. *)
Theorem checkUniques_old_skips_last (arr : list ascii) (count : nat) :
  1 ≤ count → count ≤ length arr →
  (∃ b, checkUniques_old arr count = Ok b
        ∧ (b = true ↔ NoDup (take (count - 1) arr)))
  ∧ (∀ l x, arr = l ++ [x] → count = length arr → NoDup l → x ∈ l →
       checkUniques_old arr count = Ok true
       ∧ checkUniques arr count = Ok false).
Proof.
  intros H1 Hc.
  assert (Hold : checkUniques_old arr count
                 = Ok (bool_decide (NoDup (take (count - 1) arr)))).
  { unfold checkUniques_old. destruct count as [|c]; [lia|].
    unfold checkUniques_end.
    rewrite checkUniques_from_spec by lia.
    replace (S c - 1) with c by lia.
    by rewrite Nat.sub_0_r, drop_0. }
  split.
  - eexists. split; [exact Hold|]. by rewrite bool_decide_eq_true.
  - intros l x -> -> Hnd Hin. rewrite Hold.
    rewrite length_app. simpl.
    replace (length l + 1 - 1) with (length l) by lia.
    rewrite take_app_length. split.
    + by rewrite bool_decide_true.
    + unfold checkUniques.
      rewrite checkUniques_from_spec by (unfold checkUniques_end;
        destruct (length l + 1) eqn:?; rewrite ?length_app; simpl; lia).
      rewrite Nat.sub_0_r, drop_0.
      rewrite take_ge by (rewrite length_app; simpl; lia).
      rewrite bool_decide_false; [done|].
      intros Hnd'. apply NoDup_app in Hnd' as (_ & Hdis & _).
      apply (Hdis x Hin). by apply list_elem_of_singleton.
Qed.

Lemma checkUniques_old_skips_last_witness :
  checkUniques_old ["0"; "1"; "2"; "0"]%char 4 = Ok true
  ∧ checkUniques ["0"; "1"; "2"; "0"]%char 4 = Ok false.
Proof.
  destruct (checkUniques_old_skips_last ["0"; "1"; "2"; "0"]%char 4)
    as [_ H]; [vm_compute; lia..|].
  apply (H ["0"; "1"; "2"]%char "0"%char); [reflexivity|reflexivity| |].
  - refine (bool_decide_unpack _ _). vm_compute. exact I.
  - refine (bool_decide_unpack _ _). vm_compute. exact I.
Defined.

(** X18: the unit test [ShuffleSort] never reaches its assertion: for
    every seed the harness shuffle faults with a modulo by zero before
    [checkUniques] runs.  Over the sketch's shuffle the same test body
    returns true for every seed. *)
Theorem test_ShuffleSort_faults (e : entropy) :
  test_ShuffleSort e = Fault DivisionByZero
  ∧ test_ShuffleSort_sketch e = Ok true.
Proof.
  split.
  - unfold test_ShuffleSort, Harness.shuffleSort.
    rewrite for_down_split by (vm_compute; lia).
    destruct (harness_shuffle_down_to_1 DIGIT_POOL_INIT
                (length DIGIT_POOL_INIT) e) as (st & ->); [done|].
    cbn [bind]. by rewrite harness_shuffle_body_0.
  - unfold test_ShuffleSort_sketch.
    destruct (shuffleSort_Ok DIGIT_POOL_INIT (length DIGIT_POOL_INIT) e)
      as (arr' & e' & Hsh); [done|by intros [=]|].
    rewrite Hsh. cbn [bind].
    apply shuffleSort_Permutation in Hsh.
    unfold checkUniques.
    rewrite checkUniques_from_spec;
      [|by rewrite Hsh|by unfold checkUniques_end; simpl; lia].
    rewrite Nat.sub_0_r, drop_0.
    rewrite take_ge by (by rewrite Hsh).
    rewrite bool_decide_true; [done|].
    rewrite Hsh. apply DIGIT_POOL_INIT_NoDup.
Qed.

(** ** The LCD helpers *)

Lemma lcd_print_loop (arr : list ascii) (count : nat) :
  ∀ (i0 : nat) (log : list lcd_call),
    i0 + count ≤ length arr →
    for_up count i0 (fun i log => let* c := rd arr i in Ok (log ++ [LcdPrint c]))
      log
    = Ok (log ++ map LcdPrint (take count (drop i0 arr))).
Proof.
  induction count as [|count IH]; intros i0 log Hlen; cbn [for_up].
  - by rewrite take_0, app_nil_r.
  - destruct (lookup_lt_is_Some_2 arr i0) as [c Hc]; [lia|].
    rewrite (rd_Ok _ _ _ Hc). cbn [bind]. rewrite IH by lia.
    rewrite (drop_S _ _ _ Hc), firstn_cons. cbn [map].
    by rewrite <- app_assoc.
Qed.

Lemma lcd_print_loop_fault (arr : list ascii) (count : nat) :
  ∀ (i0 : nat) (log : list lcd_call),
    i0 ≤ length arr → length arr < i0 + count →
    for_up count i0 (fun i log => let* c := rd arr i in Ok (log ++ [LcdPrint c]))
      log
    = Fault OutOfBounds.
Proof.
  induction count as [|count IH]; intros i0 log Hle Hlen; [lia|].
  cbn [for_up]. destruct (arr !! i0) as [c|] eqn:Hc.
  - rewrite (rd_Ok _ _ _ Hc). cbn [bind]. apply lookup_lt_Some in Hc.
    apply IH; lia.
  - unfold rd. by rewrite Hc.
Qed.

Lemma lcd_clear_loop (count : nat) :
  ∀ (i0 : nat) (log : list lcd_call),
    for_up count i0 (fun i log => Ok (log ++ [LcdPrint " "%char])) log
    = Ok (log ++ replicate count (LcdPrint " "%char)).
Proof.
  induction count as [|count IH]; intros i0 log; cbn [for_up bind].
  - by rewrite app_nil_r.
  - rewrite IH. cbn [replicate]. by rewrite <- app_assoc.
Qed.

(** X19: [lcdPrint] does nothing at all, not even read the array, when
    the column is 16 or more or the row is 2 or more.  Otherwise it sets
    the cursor once and prints the first [n] characters of the array in
    order, with no clipping at the right edge of the display; it reads
    past the array when [n] exceeds it. *)
Theorem lcdPrint_calls (x y : N) (arr : list ascii) (n : nat)
  (lcd : list lcd_call) :
  (lcd_out_of_range x y = true ↔ (16 ≤ x)%N ∨ (2 ≤ y)%N)
  ∧ (lcd_out_of_range x y = true → lcdPrint x y arr n lcd = Ok lcd)
  ∧ (lcd_out_of_range x y = false → n ≤ length arr →
     lcdPrint x y arr n lcd
     = Ok (lcd ++ LcdSetCursor x y :: map LcdPrint (take n arr)))
  ∧ (lcd_out_of_range x y = false → length arr < n →
     lcdPrint x y arr n lcd = Fault OutOfBounds).
Proof.
  split_and!.
  - unfold lcd_out_of_range, LCD_COLCOUNT, LCD_ROWCOUNT.
    rewrite !orb_true_iff, !N.ltb_lt, !N.leb_le. lia.
  - intros H. unfold lcdPrint. by rewrite H.
  - intros H Hn. unfold lcdPrint. rewrite H.
    rewrite lcd_print_loop by lia. by rewrite drop_0, <- app_assoc.
  - intros H Hn. unfold lcdPrint. rewrite H.
    apply lcd_print_loop_fault; lia.
Qed.

(** X20: [lcdClear] does nothing when the column is 16 or more or the row
    is 2 or more; otherwise it sets the cursor once and prints exactly [n]
    spaces.  It never faults. *)
Theorem lcdClear_calls (x y : N) (n : nat) (lcd : list lcd_call) :
  (lcd_out_of_range x y = true → lcdClear x y n lcd = Ok lcd)
  ∧ (lcd_out_of_range x y = false →
     lcdClear x y n lcd
     = Ok (lcd ++ LcdSetCursor x y :: replicate n (LcdPrint " "%char))).
Proof.
  split; intros H; unfold lcdClear; rewrite H; [done|].
  rewrite lcd_clear_loop. by rewrite <- app_assoc.
Qed.
